(** * models/database.py: table naming and the generic access mixin

    A shallow embedding of [src/models/database.py], and the properties of
    it that the specification states.

    - [Naming] embeds [Base.__tablename__], the derivation of a table name
      from the name of an entity class.
    - The session object [db] (SQLAlchemy's [AsyncSession] behind
      [AsyncDatabaseSession], which only forwards to it) is an external
      library: it is modelled by a state, [session], and the calls
      [db_add], [db_commit], [db_rollback], [db_refresh] and [db_execute]
      on it.
    - [AbstractClass] embeds the methods of the mixin, written in a
      state-and-exception monad over [session] so that they read as the
      source does. [await] is sequencing: the development is about one
      caller at a time.
    - [BaseModel] embeds [BaseModel.__str__].

    Left out: the engine and session factory of [AsyncDatabaseSession.init]
    and its [create_all] and [drop_all] (schema statements on a connection
    of their own), and the timestamps of [CreatedBaseModel] (the clock). *)

From Stdlib Require Import ZArith Ascii String.
From Stdlib Require DecimalString DecimalPos DecimalZ.
From stdpp Require Import base option list strings gmap.

(** ** Table names *)

Module Naming.

(** Python's [str.isupper] and [str.lower], on the ASCII range: class names
    are taken to be ASCII identifiers; characters from 128 on are uncased
    here. *)
Definition isupper (c : ascii) : bool :=
  let n := nat_of_ascii c in (65 <=? n)%nat && (n <=? 90)%nat.

Definition lower_char (c : ascii) : ascii :=
  if isupper c then ascii_of_nat (nat_of_ascii c + 32) else c.

Fixpoint lower (s : string) : string :=
  match s with
  | EmptyString => EmptyString
  | String c s' => String (lower_char c) (lower s')
  end.

(** Slices [s[:n]] and [s[n:]], and [s[:-1]]. *)
Fixpoint slice_to (n : nat) (s : string) : string :=
  match n, s with
  | S n', String c s' => String c (slice_to n' s')
  | _, _ => EmptyString
  end.

Fixpoint slice_from (n : nat) (s : string) : string :=
  match n, s with
  | S n', String _ s' => slice_from n' s'
  | _, _ => s
  end.

Definition slice_drop_last (s : string) : string :=
  slice_to (String.length s - 1) s.

(** [s.endswith(suffix)] *)
Definition endswith (s suffix : string) : bool :=
  (String.length suffix <=? String.length s)%nat
  && String.eqb (slice_from (String.length s - String.length suffix) s) suffix.

(** The body of the [for i in self.__name__[1:]] loop, run over the
    characters still to be read with the accumulator [__name]. *)
Fixpoint tablename_loop (rest : string) (__name : string) : string :=
  match rest with
  | EmptyString => __name
  | String i rest' =>
      let __name := if isupper i then __name +:+ "_" else __name in
      tablename_loop rest' (__name +:+ String i EmptyString)
  end.

(** [Base.__tablename__], as a function of [self.__name__]. *)
Definition tablename (name : string) : string :=
  let __name := slice_to 1 name in
  let __name := tablename_loop (slice_from 1 name) __name in
  let __name := lower __name in
  let __name :=
    if endswith __name "y" then slice_drop_last __name +:+ "ie" else __name in
  __name +:+ "s".

(** *** The rule in the words of the specification

    "inserting an underscore before each internal capital letter,
    lower-casing the result, and pluralizing (trailing y becomes ie + s;
    otherwise append s)". *)

(** [internal] tells whether the character at the head is past the first
    position of the name. *)
Fixpoint underscore_capitals (internal : bool) (s : string) : string :=
  match s with
  | EmptyString => EmptyString
  | String c s' =>
      if internal && isupper c
      then String "_" (String c (underscore_capitals true s'))
      else String c (underscore_capitals true s')
  end.

Fixpoint pluralize (s : string) : string :=
  match s with
  | EmptyString => "s"
  | String c EmptyString =>
      if Ascii.eqb c "y" then "ies" else String c "s"
  | String c s' => String c (pluralize s')
  end.

Definition tablename_spec (name : string) : string :=
  pluralize (lower (underscore_capitals false name)).

End Naming.


(** ** Values, rows and entity classes *)

(** A Python value held in a column or an attribute. *)
Inductive value :=
| VNone
| VInt (z : Z)
| VStr (s : string).

#[global] Instance value_eq_dec : EqDecision value.
Proof. solve_decision. Defined.

(** Keyword arguments, the attributes of an instance and the columns of a
    stored row are all dictionaries from names to values. A column that is
    absent from a row is NULL. *)
Abbreviation attrs := (gmap string value).
Abbreviation row := (gmap string value).
Abbreviation table := (list (gmap string value)).

Definition getattr (r : attrs) (name : string) : value :=
  default VNone (r !! name).

(** An entity class: its [__name__] and the columns its subclass body
    declares. [BaseModel] gives every class the primary key [id]. *)
Record entity_class := {
  cls_name : string;
  cls_columns : list string;
}.

Definition columns (cls : entity_class) : list string :=
  "id" :: cls_columns cls.

Definition table_of (cls : entity_class) : string :=
  Naming.tablename (cls_name cls).

(** A criteria is a boolean expression over the columns of a row. *)
Definition criteria := row → bool.

(** [cls.<name> == v]; comparing with [None] is the IS NULL test. *)
Definition col_eq (name : string) (v : value) : criteria :=
  λ r, bool_decide (getattr r name = v).

(** ** Exceptions *)

(** The exceptions that occur, with their place in Python's hierarchy:
    [CancelledError] (raised into a coroutine that awaits when its task is
    cancelled) and [KeyboardInterrupt] derive from [BaseException] only.
    [MissingGreenlet] is what the async session raises when a plain
    attribute read would need a round trip to the database. *)
Inductive exn :=
| TypeError (msg : string)
| IntegrityError (msg : string)
| DataError (msg : string)
| OperationalError (msg : string)
| ProgrammingError (msg : string)
| CompileError (msg : string)
| InvalidRequestError (msg : string)
| MissingGreenlet (msg : string)
| CancelledError
| KeyboardInterrupt.

(** [isinstance(e, Exception)] *)
Definition is_Exception (e : exn) : bool :=
  match e with
  | CancelledError | KeyboardInterrupt => false
  | _ => true
  end.

(** [str(e)], what [print(e)] writes. *)
Definition str (e : exn) : string :=
  match e with
  | TypeError m | IntegrityError m | DataError m | OperationalError m
  | ProgrammingError m | CompileError m | InvalidRequestError m
  | MissingGreenlet m => m
  | CancelledError | KeyboardInterrupt => ""
  end.

(** ** Queries *)

(** A column object such as [User.name]: it knows its class. *)
Definition column : Type := entity_class * string.

Inductive projection :=
| Entity (cls : entity_class)          (* select(cls) *)
| Columns (cols : list column)         (* select( *columns ) *)
| CountStar.                           (* select(func.count()) *)

Inductive statement :=
| SELECT (what : projection)
| UPDATE (cls : entity_class)
| DELETE (cls : entity_class).

(** A query object, built up by the generative methods below. *)
Record query := {
  q_statement : statement;
  q_from : option entity_class;
  q_where : list criteria;
  q_values : attrs;
  q_options : list string;
  q_execution_options : list (string * string);
}.

Definition new_query (st : statement) : query :=
  {| q_statement := st; q_from := None; q_where := [];
     q_values := ∅; q_options := []; q_execution_options := [] |}.

Definition select (cls : entity_class) : query := new_query (SELECT (Entity cls)).
Definition select_columns (cols : list column) : query :=
  new_query (SELECT (Columns cols)).
Definition select_count : query := new_query (SELECT CountStar).
Definition sqlalchemy_update (cls : entity_class) : query := new_query (UPDATE cls).
Definition sqlalchemy_delete (cls : entity_class) : query := new_query (DELETE cls).

Definition select_from (cls : entity_class) (q : query) : query :=
  {| q_statement := q_statement q; q_from := Some cls; q_where := q_where q;
     q_values := q_values q; q_options := q_options q;
     q_execution_options := q_execution_options q |}.

Definition where_ (c : criteria) (q : query) : query :=
  {| q_statement := q_statement q; q_from := q_from q;
     q_where := q_where q ++ [c];
     q_values := q_values q; q_options := q_options q;
     q_execution_options := q_execution_options q |}.

Definition values (kwargs : attrs) (q : query) : query :=
  {| q_statement := q_statement q; q_from := q_from q; q_where := q_where q;
     q_values := kwargs ∪ q_values q; q_options := q_options q;
     q_execution_options := q_execution_options q |}.

(** [query.options(selectinload(relationship))] *)
Definition options_selectinload (relationship : string) (q : query) : query :=
  {| q_statement := q_statement q; q_from := q_from q; q_where := q_where q;
     q_values := q_values q; q_options := q_options q ++ [relationship];
     q_execution_options := q_execution_options q |}.

Definition execution_options (key val : string) (q : query) : query :=
  {| q_statement := q_statement q; q_from := q_from q; q_where := q_where q;
     q_values := q_values q; q_options := q_options q;
     q_execution_options := q_execution_options q ++ [(key, val)] |}.

(** ** Results *)

(** One cell of a result row: a whole entity or a column value. *)
Inductive cell :=
| CEntity (r : row)
| CValue (v : value).

(** The rows of a [Result], in the order the engine produced them. *)
Abbreviation result := (list (list cell)).

(** [Result.scalar()]: the first column of the first row, or [None]. *)
Definition scalar (res : result) : option cell :=
  match res with
  | [] => None
  | r :: _ => head r
  end.

(** [Result.scalars()]: the first column of each row. The async session
    buffers the rows when it executes, so the sequence is a list that is
    read once. *)
Definition scalars (res : result) : list cell :=
  omap head res.

(** [ScalarResult.all()] *)
Definition all_ (xs : list cell) : list cell := xs.

(** ** The session *)

(** An instance of an entity class on the Python heap. [inst_key] is its
    identity in the session: [None] while the instance is transient or
    pending, the primary key once a flush has made it persistent.
    [inst_expired] tells that the session has discarded the attributes it
    had loaded (a rollback does, for every persistent instance): they
    have to be loaded again before they can be read. *)
Record instance := {
  inst_class : entity_class;
  inst_attrs : attrs;
  inst_key : option value;
  inst_expired : bool;
}.

(** A reference to an instance. *)
Abbreviation loc := nat.

(** The state behind [db]: the database and the session's unit of work.
    - [committed]: the durable contents of every table, by table name;
    - [working]: the contents as the open transaction sees them; every
      statement reads and writes these;
    - [sequences]: the next value of each table's primary-key sequence
      (sequences are not transactional);
    - [heap], [pending]: the instances created so far and those staged by
      [db.add] and not yet flushed;
    - [faults]: what the database does to the coming awaited calls, one
      entry a call: [Some e] makes the call raise [e] (a lost connection, a
      constraint the model does not track, a cancellation), [None] lets it
      run; past the end of the list every call runs;
    - [stdout]: the lines printed. *)
Record session := {
  committed : gmap string table;
  working : gmap string table;
  sequences : gmap string Z;
  heap : list instance;
  pending : list loc;
  faults : list (option exn);
  stdout : list string;
}.

Definition set_committed (x : gmap string table) (s : session) : session :=
  {| committed := x; working := working s; sequences := sequences s;
     heap := heap s; pending := pending s; faults := faults s;
     stdout := stdout s |}.
Definition set_working (x : gmap string table) (s : session) : session :=
  {| committed := committed s; working := x; sequences := sequences s;
     heap := heap s; pending := pending s; faults := faults s;
     stdout := stdout s |}.
Definition set_sequences (x : gmap string Z) (s : session) : session :=
  {| committed := committed s; working := working s; sequences := x;
     heap := heap s; pending := pending s; faults := faults s;
     stdout := stdout s |}.
Definition set_heap (x : list instance) (s : session) : session :=
  {| committed := committed s; working := working s; sequences := sequences s;
     heap := x; pending := pending s; faults := faults s;
     stdout := stdout s |}.
Definition set_pending (x : list loc) (s : session) : session :=
  {| committed := committed s; working := working s; sequences := sequences s;
     heap := heap s; pending := x; faults := faults s;
     stdout := stdout s |}.
Definition set_faults (x : list (option exn)) (s : session) : session :=
  {| committed := committed s; working := working s; sequences := sequences s;
     heap := heap s; pending := pending s; faults := x;
     stdout := stdout s |}.
Definition set_stdout (x : list string) (s : session) : session :=
  {| committed := committed s; working := working s; sequences := sequences s;
     heap := heap s; pending := pending s; faults := faults s;
     stdout := x |}.

(** The rows of the table of [cls], as statements see them. *)
Definition rows (cls : entity_class) (s : session) : table :=
  working s !!! table_of cls.

(** ** Computations that change the session and may raise *)

Inductive outcome (A : Type) :=
| Return (a : A)
| Raise (e : exn).
Arguments Return {A} a.
Arguments Raise {A} e.

Definition M (A : Type) : Type := session → outcome A * session.

Definition ret {A} (a : A) : M A := λ s, (Return a, s).
Definition raise {A} (e : exn) : M A := λ s, (Raise e, s).
Definition bind {A B} (m : M A) (k : A → M B) : M B :=
  λ s, match m s with
       | (Return a, s') => k a s'
       | (Raise e, s') => (Raise e, s')
       end.

(** stdpp's monad notations [x ← m; k] and [m;; k] for [M]. *)
#[global] Instance M_ret : MRet M := @ret.
#[global] Instance M_bind : MBind M := λ A B k m, bind m k.

(** [try: body except Exception as e: handler(e)]: only instances of
    [Exception] are caught. *)
Definition try_except_Exception {A} (body : M A) (handler : exn → M A) : M A :=
  λ s, match body s with
       | (Return a, s') => (Return a, s')
       | (Raise e, s') =>
           if is_Exception e then handler e s' else (Raise e, s')
       end.

Definition print (e : exn) : M unit :=
  λ s, (Return tt, set_stdout (stdout s ++ [str e]) s).

(** *** The calls on [db]

    What follows models the external library: the source only calls it.
    The model keeps what the mixin relies on: statements act on the open
    transaction, [commit] flushes the staged instances and makes the
    transaction durable, [rollback] discards it, and any awaited call may
    raise. A rollback also expires the persistent instances, whose
    attributes then cannot be read without a reload. It leaves out
    autoflush before a statement (every [db.add] of the mixin is
    followed at once by a commit) and the synchronisation of instances
    in memory with bulk UPDATE and DELETE (queries return the stored
    rows). Every table named by a class is taken to exist ([create_all]
    has run); a table with no entry in the map is empty. *)

(** An awaited call reaches the database: it takes the next entry of
    [faults]. *)
Definition await_db : M unit :=
  λ s, match faults s with
       | [] => (Return tt, s)
       | None :: fs => (Return tt, set_faults fs s)
       | Some e :: fs => (Raise e, set_faults fs s)
       end.

(** Are all the names of [kwargs] columns of [cls]? *)
Definition known_columns (cls : entity_class) (kwargs : attrs) : bool :=
  bool_decide (map_Forall (λ name _, name ∈ columns cls) kwargs).

(** The primary-key constraint on a table: integer keys, no two alike. *)
Definition int_key (r : row) : bool :=
  match getattr r "id" with VInt _ => true | _ => false end.

Definition pk_ok (t : table) : bool :=
  forallb int_key t && bool_decide (NoDup ((λ r, getattr r "id") <$> t)).

(** [cls( **kwargs )], the declarative constructor: a keyword that is not
    an attribute of the class is a [TypeError]; the new instance is
    transient. *)
Definition construct (cls : entity_class) (kwargs : attrs) : M loc :=
  λ s, if known_columns cls kwargs
       then (Return (length (heap s)),
             set_heap (heap s ++ [{| inst_class := cls; inst_attrs := kwargs;
                                     inst_key := None;
                                     inst_expired := false |}]) s)
       else (Raise (TypeError "invalid keyword argument"), s).

(** [db.add(obj)]: not awaited, no I/O. *)
Definition db_add (obj : loc) : M unit :=
  λ s, (Return tt, set_pending (pending s ++ [obj]) s).

(** INSERT of one pending instance: the key is the given [id] or the next
    value of the sequence; a key already in the table violates the
    primary-key constraint. The instance becomes persistent. *)
Definition insert_instance (obj : loc) (inst : instance) (k : Z) : M unit :=
  λ s, let t := table_of (inst_class inst) in
       let tbl := working s !!! t in
       if existsb (col_eq "id" (VInt k)) tbl
       then (Raise (IntegrityError "duplicate key value"), s)
       else
         let r := <["id" := VInt k]> (inst_attrs inst) in
         (Return tt,
          set_heap (<[obj := {| inst_class := inst_class inst; inst_attrs := r;
                               inst_key := Some (VInt k);
                               inst_expired := false |}]> (heap s))
            (set_working (<[t := tbl ++ [r]]> (working s)) s)).

Definition next_key (t : string) : M Z :=
  λ s, let k := default 1%Z (sequences s !! t) in
       (Return k, set_sequences (<[t := (k + 1)%Z]> (sequences s)) s).

Definition flush_one (obj : loc) : M unit :=
  λ s, match heap s !! obj with
       | None => (Return tt, s)
       | Some inst =>
           match getattr (inst_attrs inst) "id" with
           | VInt k => insert_instance obj inst k s
           | VNone =>
               (k ← next_key (table_of (inst_class inst));
                insert_instance obj inst k) s
           | VStr _ => (Raise (DataError "invalid input for bigint"), s)
           end
       end.

Fixpoint flush_all (objs : list loc) : M unit :=
  match objs with
  | [] => mret tt
  | obj :: objs' => flush_one obj;; flush_all objs'
  end.

(** The flush of the pending instances, in the order they were added. A
    flush that fails undoes what it did (sequences apart) and leaves the
    instances pending. *)
Definition db_flush : M unit :=
  λ s, match flush_all (pending s) s with
       | (Return _, s') => (Return tt, set_pending [] s')
       | (Raise e, s') => (Raise e, set_sequences (sequences s') s)
       end.

(** A rollback expires the persistent instances: what they had loaded
    may no longer be what the database holds. An instance that is not in
    the session keeps its attributes. *)
Definition expire (inst : instance) : instance :=
  match inst_key inst with
  | Some _ =>
      {| inst_class := inst_class inst; inst_attrs := inst_attrs inst;
         inst_key := inst_key inst; inst_expired := true |}
  | None => inst
  end.

(** The end of a transaction: its changes become durable (the session is
    made with [expire_on_commit=False], so the instances stay loaded), or
    they are dropped together with the pending instances, which are
    expunged, and the persistent instances are expired. *)
Definition end_commit : M unit :=
  λ s, (Return tt, set_committed (working s) s).

Definition end_rollback : M unit :=
  λ s, (Return tt,
        set_pending []
          (set_working (committed s) (set_heap (expire <$> heap s) s))).

(** [await db.commit()] *)
Definition db_commit : M unit :=
  await_db;; db_flush;; end_commit.

(** [await db.rollback()] *)
Definition db_rollback : M unit :=
  await_db;; end_rollback.

(** The attributes of a persistent instance are loaded again from its
    row. *)
Definition reload (obj : loc) (inst : instance) (k : value) : M unit :=
  λ s, match find (col_eq "id" k) (rows (inst_class inst) s) with
       | None => (Raise (InvalidRequestError "could not refresh"), s)
       | Some r =>
           (Return tt,
            set_heap (<[obj := {| inst_class := inst_class inst;
                                 inst_attrs := r;
                                 inst_key := Some k;
                                 inst_expired := false |}]> (heap s)) s)
       end.

(** [await db.refresh(obj)]: the instance must be persistent in the
    session, which is checked before any I/O. *)
Definition db_refresh (obj : loc) : M unit :=
  λ s, match heap s !! obj with
       | None => (Raise (InvalidRequestError "not persistent"), s)
       | Some inst =>
           match inst_key inst with
           | None => (Raise (InvalidRequestError "not persistent"), s)
           | Some k => (await_db;; reload obj inst k) s
           end
       end.

(** [type(obj)] and [obj.<name>] for a column attribute, on a live
    instance. Reading a column of an expired instance would have to load
    it, which a plain attribute read cannot do under the async session:
    it raises [MissingGreenlet]. (A reference always has its instance on
    the heap; the other case is there for totality.) *)
Definition type_of (obj : loc) : M entity_class :=
  λ s, match heap s !! obj with
       | Some inst => (Return (inst_class inst), s)
       | None => (Raise (TypeError "no such instance"), s)
       end.

Definition read_attr (obj : loc) (name : string) : M value :=
  λ s, match heap s !! obj with
       | Some inst =>
           if inst_expired inst
           then (Raise (MissingGreenlet "greenlet_spawn has not been called"),
                 s)
           else (Return (getattr (inst_attrs inst) name), s)
       | None => (Raise (TypeError "no such instance"), s)
       end.

(** The rows of a table after an UPDATE: the rows it leaves alone, then
    the rows it rewrites, which the engine stores anew (PostgreSQL's
    heap does; the order of rows is the engine's, and a SELECT without
    ORDER BY returns them in it). *)
Definition update_rows (c : criteria) (vals : attrs) (t : table) : table :=
  List.filter (λ r, negb (c r)) t ++ ((λ r, vals ∪ r) <$> List.filter c t).

(** The conjunction of the [where] clauses of a query. *)
Definition matches (q : query) : criteria :=
  λ r, forallb (λ c : criteria, c r) (q_where q).

(** The class a statement reads from: [select_from] if given, else the
    class of what is selected (columns are taken from one class, that of
    the first). *)
Definition from_clause (q : query) : option entity_class :=
  match q_from q with
  | Some cls => Some cls
  | None =>
      match q_statement q with
      | SELECT (Entity cls) => Some cls
      | SELECT (Columns ((cls, _) :: _)) => Some cls
      | SELECT _ => None
      | UPDATE cls | DELETE cls => Some cls
      end
  end.

(** The rows a SELECT ranges over, in the engine's order (the order of
    the table); without a FROM clause there is one empty row. *)
Definition source_rows (q : query) (s : session) : table :=
  match from_clause q with
  | Some cls => rows cls s
  | None => [∅]
  end.

(** Compilation of a statement, before any I/O: the names given to
    [values] must be columns. *)
Definition compile (q : query) : M unit :=
  match q_statement q with
  | UPDATE cls =>
      if known_columns cls (q_values q) then mret tt
      else raise (CompileError "Unconsumed column names")
  | _ => mret tt
  end.

Definition run (q : query) : M result :=
  λ s, match q_statement q with
       | SELECT what =>
           let rs := List.filter (matches q) (source_rows q s) in
           (Return
              match what with
              | Entity _ => (λ r, [CEntity r]) <$> rs
              | Columns cols =>
                  (λ r, (λ c : column, CValue (getattr r c.2)) <$> cols) <$> rs
              | CountStar => [[CValue (VInt (Z.of_nat (length rs)))]]
              end, s)
       | UPDATE cls =>
           let t := table_of cls in
           let tbl := update_rows (matches q) (q_values q) (working s !!! t) in
           if pk_ok tbl
           then (Return [], set_working (<[t := tbl]> (working s)) s)
           else (Raise (IntegrityError "primary key violation"), s)
       | DELETE cls =>
           let t := table_of cls in
           let tbl := List.filter (λ r, negb (matches q r)) (working s !!! t) in
           (Return [], set_working (<[t := tbl]> (working s)) s)
       end.

(** [await db.execute(query)] *)
Definition db_execute (q : query) : M result :=
  compile q;; await_db;; run q.

(** ** The mixin [AbstractClass] *)

Module AbstractClass.

Definition commit : M unit :=
  try_except_Exception
    db_commit
    (λ e, print e;; db_rollback).

Definition refresh (obj : loc) : M unit :=
  db_refresh obj.

Definition create (cls : entity_class) (kwargs : attrs) : M loc :=
  object_ ← construct cls kwargs;
  db_add object_;;
  commit;;
  refresh object_;;
  mret object_.

Definition update (cls : entity_class) (id_ : value) (kwargs : attrs) : M unit :=
  let query :=
    execution_options "synchronize_session" "fetch"
      (values kwargs
         (where_ (col_eq "id" id_)
            (sqlalchemy_update cls))) in
  db_execute query;;
  commit.

Definition get (cls : entity_class) (criteria_ : criteria)
    (relationship : option string) : M (option cell) :=
  let query := where_ criteria_ (select cls) in
  let query :=
    match relationship with
    | Some rel => options_selectinload rel query
    | None => query
    end in
  res ← db_execute query;
  mret (scalar res).

Definition count (cls : entity_class) : M (option cell) :=
  let query := select_from cls select_count in
  res ← db_execute query;
  mret (scalar res).

Definition delete_by_id (cls : entity_class) (id_ : value) : M unit :=
  let query := where_ (col_eq "id" id_) (sqlalchemy_delete cls) in
  db_execute query;;
  commit.

(** [self] is a live instance: [self.__class__] and then [self.id] are
    read from it when the statement is built. *)
Definition delete (self : loc) : M unit :=
  self_class ← type_of self;
  self_id ← read_attr self "id";
  let query := where_ (col_eq "id" self_id) (sqlalchemy_delete self_class) in
  db_execute query;;
  commit.

(** [if columns:] is false for [None] and for an empty sequence. *)
Definition filter (cls : entity_class) (criteria_ : criteria)
    (relationship : option string) (columns_ : option (list column))
  : M (list cell) :=
  let query :=
    match columns_ with
    | Some (c :: cs) => select_columns (c :: cs)
    | _ => select cls
    end in
  let query := where_ criteria_ query in
  let query :=
    match relationship with
    | Some rel => options_selectinload rel query
    | None => query
    end in
  res ← db_execute query;
  mret (scalars res).


Definition run_query (cls : entity_class) (query_ : query) : M (list cell) :=
  result_ ← db_execute query_;
  mret (all_ (scalars result_)).

Definition query_count (cls : entity_class) (query_ : query) : M (option cell) :=
  result_ ← db_execute query_;
  mret (scalar result_).

End AbstractClass.

(** ** A sample database

    One entity class and a session over a table of two rows, used for
    concrete runs. [at_rest fs] is the session between two operations:
    nothing pending, the transaction's view equal to the durable contents,
    and [fs] the faults to come. *)

Module Sample.

Definition User : entity_class :=
  {| cls_name := "User"; cls_columns := ["name"; "email"] |}.

Definition alice : row := {[ "id" := VInt 1; "name" := VStr "alice" ]}.
Definition bob : row := {[ "id" := VInt 2; "name" := VStr "bob" ]}.

Definition users : gmap string table := {[ "users" := [alice; bob] ]}.

Definition at_rest (fs : list (option exn)) : session :=
  {| committed := users; working := users;
     sequences := {[ "users" := 3%Z ]};
     heap := []; pending := []; faults := fs; stdout := [] |}.

(** The same, with an instance for the row of alice loaded in the
    session, at reference 0. *)
Definition alice_loaded : instance :=
  {| inst_class := User; inst_attrs := alice; inst_key := Some (VInt 1);
     inst_expired := false |}.

Definition with_alice (fs : list (option exn)) : session :=
  {| committed := users; working := users;
     sequences := {[ "users" := 3%Z ]};
     heap := [alice_loaded]; pending := []; faults := fs; stdout := [] |}.

End Sample.

(** ** Notions used in the statements *)


(** The key the flush gives a new instance built from [kwargs]: the [id]
    given, or the next value of the sequence when there is none. *)
Definition new_key (cls : entity_class) (kwargs : attrs) (s : session)
  : option Z :=
  match getattr kwargs "id" with
  | VInt k => Some k
  | VNone => Some (default 1%Z (sequences s !! table_of cls))
  | VStr _ => None
  end.

(** The capital letters of a string, and those of a name past its first
    character. *)
Fixpoint capitals (s : string) : nat :=
  match s with
  | EmptyString => 0
  | String c s' => (if Naming.isupper c then 1 else 0) + capitals s'
  end.

Definition internal_capitals (name : string) : nat :=
  capitals (Naming.slice_from 1 name).


Module BaseModel.


End BaseModel.

(** The outcome of a computation, with a function applied to what it
    returns. *)
Definition outcome_map {A B} (f : A → B) (o : outcome A) : outcome B :=
  match o with
  | Return a => Return (f a)
  | Raise e => Raise e
  end.

(** [same_data s s']: the sessions differ at most in the faults still to
    come. *)
Definition same_data (s s' : session) : Prop :=
  committed s' = committed s ∧ working s' = working s
  ∧ sequences s' = sequences s ∧ heap s' = heap s
  ∧ pending s' = pending s ∧ stdout s' = stdout s.

(** No transaction is open: nothing is staged, and the transaction's view
    is the durable contents. *)
Definition closed (s : session) : Prop :=
  pending s = [] ∧ working s = committed s.


(** * Properties *)

(** ** Table names *)

Section NamingFacts.
Import Naming.

Lemma append_cons (x : ascii) (a b : string) :
  String x a +:+ b = String x (a +:+ b).
Proof. reflexivity. Qed.

Lemma append_nil_r (a : string) : a +:+ "" = a.
Proof.
  induction a as [|x a IH]; [done|]. by rewrite append_cons, IH.
Qed.

Lemma append_assoc (a b c : string) : (a +:+ b) +:+ c = a +:+ (b +:+ c).
Proof.
  induction a as [|x a IH]; [done|]. by rewrite !append_cons, IH.
Qed.

(** The loop appends to its accumulator the rest of the name with an
    underscore before each capital. *)
Lemma tablename_loop_spec (rest acc : string) :
  tablename_loop rest acc = acc +:+ underscore_capitals true rest.
Proof.
  revert acc. induction rest as [|i rest IH]; intros acc; simpl.
  - by rewrite append_nil_r.
  - rewrite IH. destruct (isupper i); by rewrite !append_assoc.
Qed.

Lemma underscore_split (name : string) :
  slice_to 1 name +:+ underscore_capitals true (slice_from 1 name)
  = underscore_capitals false name.
Proof. destruct name as [|c name]; [done|]. by destruct name. Qed.

Lemma endswith_y_cons (c d : ascii) (s : string) :
  endswith (String c (String d s)) "y" = endswith (String d s) "y".
Proof.
  unfold endswith. simpl String.length.
  by rewrite !Nat.sub_succ, !Nat.sub_0_r.
Qed.

Lemma endswith_y_single (c : ascii) :
  endswith (String c "") "y" = Ascii.eqb c "y".
Proof. unfold endswith. simpl. by destruct (Ascii.eqb c "y"). Qed.

Lemma slice_drop_last_cons (c d : ascii) (s : string) :
  slice_drop_last (String c (String d s))
  = String c (slice_drop_last (String d s)).
Proof.
  unfold slice_drop_last. simpl String.length.
  by rewrite !Nat.sub_succ, !Nat.sub_0_r.
Qed.

(** The suffix test and the slice of the source compute [pluralize]. *)
Lemma pluralize_source (s : string) :
  (if endswith s "y" then slice_drop_last s +:+ "ie" else s) +:+ "s"
  = pluralize s.
Proof.
  induction s as [|c s IH]; [done|].
  destruct s as [|d s].
  - rewrite endswith_y_single. simpl.
    destruct (Ascii.eqb_spec c "y") as [->|]; done.
  - rewrite endswith_y_cons, slice_drop_last_cons.
    change (pluralize (String c (String d s)))
      with (String c (pluralize (String d s))).
    rewrite <- IH. by destruct (endswith (String d s) "y").
Qed.

Lemma tablename_refines (name : string) :
  tablename name = tablename_spec name.
Proof.
  unfold tablename, tablename_spec.
  rewrite tablename_loop_spec, underscore_split.
  apply pluralize_source.
Qed.

End NamingFacts.

(** C2: the table name derived by [Base.__tablename__] is, for every type
    name, the name with an underscore before each internal capital letter,
    lower-cased and pluralized (a trailing y becomes ie, then s is
    appended); UserAccount gives user_accounts and Category gives
    categories. The derivation is a function of the name alone. *)
Theorem tablename_rule :
  (∀ name, Naming.tablename name = Naming.tablename_spec name)
  ∧ Naming.tablename "UserAccount" = "user_accounts"
  ∧ Naming.tablename "Category" = "categories".
Proof.
  split; [apply tablename_refines|]. split; reflexivity.
Qed.

(** ** Running a computation *)

Section Running.
Context {A B : Type}.
Implicit Types (m : M A) (k : A → M B) (s : session).

Lemma bind_return m k s a s1 :
  m s = (Return a, s1) → (m ≫= k) s = k a s1.
Proof. intros H. unfold mbind, M_bind, bind. by rewrite H. Qed.

Lemma bind_raise m k s e s1 :
  m s = (Raise e, s1) → (m ≫= k) s = (Raise e, s1).
Proof. intros H. unfold mbind, M_bind, bind. by rewrite H. Qed.


End Running.

Lemma set_pending_same (s : session) : pending s = [] → set_pending [] s = s.
Proof. destruct s; simpl; by intros ->. Qed.

(** ** The database at rest *)

Lemma await_db_quiet (s : session) :
  faults s = [] → await_db s = (Return tt, s).
Proof. intros H. unfold await_db. by rewrite H. Qed.

Lemma await_db_fault (s : session) (e : exn) (fs : list (option exn)) :
  faults s = Some e :: fs → await_db s = (Raise e, set_faults fs s).
Proof. intros H. unfold await_db. by rewrite H. Qed.

(** A SELECT compiles, and only the database can make it fail. *)
Lemma db_execute_select (q : query) (what : projection) (s : session) :
  q_statement q = SELECT what →
  db_execute q s = (await_db;; run q) s.
Proof.
  intros H. unfold db_execute, compile. rewrite H. done.
Qed.

Lemma matches_where (c : criteria) (q : query) (r : row) :
  q_where q = [] → matches (where_ c q) r = c r.
Proof.
  intros H. unfold matches, where_; simpl. rewrite H; simpl.
  by rewrite andb_true_r.
Qed.

Lemma scalar_entities (rs : table) :
  scalar ((λ r, [CEntity r]) <$> rs) = CEntity <$> head rs.
Proof. by destruct rs. Qed.

Lemma scalars_entities (rs : table) :
  scalars ((λ r, [CEntity r]) <$> rs) = CEntity <$> rs.
Proof. induction rs as [|r rs IH]; [done|]. simpl. by f_equal. Qed.

Section Reading.
Import AbstractClass.
Implicit Types (cls : entity_class) (c : criteria) (s : session).

(** The query of [get], with or without a relationship to load. *)
Lemma get_run cls c relationship s :
  get cls c relationship s
  = (res ← (await_db;; run (where_ c (select cls))); mret (scalar res)) s.
Proof.
  unfold get. destruct relationship as [rel|]; unfold mbind, M_bind, bind;
    by erewrite db_execute_select by done.
Qed.

Lemma run_select_entities cls c s :
  run (where_ c (select cls)) s
  = (Return ((λ r, [CEntity r]) <$> List.filter c (rows cls s)), s).
Proof.
  unfold run; simpl. unfold source_rows, from_clause; simpl.
  do 3 f_equal. apply List.filter_ext. intros r. by apply matches_where.
Qed.

Lemma get_quiet cls c relationship s :
  faults s = [] →
  get cls c relationship s
  = (Return (CEntity <$> head (List.filter c (rows cls s))), s).
Proof.
  intros H. rewrite get_run.
  unfold mbind, M_bind, bind. rewrite await_db_quiet by done.
  rewrite run_select_entities. unfold mret, M_ret, ret.
  by rewrite scalar_entities.
Qed.

Lemma count_quiet cls s :
  faults s = [] →
  count cls s
  = (Return (Some (CValue (VInt (Z.of_nat (length (rows cls s)))))), s).
Proof.
  intros H. unfold count.
  unfold mbind, M_bind, bind.
  erewrite db_execute_select by done.
  unfold mbind, M_bind, bind. rewrite await_db_quiet by done.
  unfold run; simpl. unfold source_rows, from_clause; simpl.
  unfold mret, M_ret, ret; simpl.
  by rewrite List.filter_true.
Qed.

End Reading.

(** ** Reading: [get], [filter], [count] *)

Section ReadingClaims.
Import AbstractClass.
Implicit Types (cls : entity_class) (c : criteria) (s : session).

(** C7: [get] returns at most one entity: none when no row satisfies the
    criteria, otherwise the first of the matching rows in the order the
    engine produces them. *)
Theorem get_first_match cls c relationship s :
  faults s = [] →
  ∃ found : option cell,
    get cls c relationship s = (Return found, s)
    ∧ found = CEntity <$> head (List.filter c (rows cls s))
    ∧ (found = None ↔ ∀ r, r ∈ rows cls s → c r = false).
Proof.
  intros Hq. eexists. split; [by apply get_quiet|]. split; [done|].
  destruct (List.filter c (rows cls s)) as [|r0 rs] eqn:Hf; simpl.
  - split; [|done]. intros _ r Hr.
    destruct (c r) eqn:Hc; [|done].
    assert (In r (List.filter c (rows cls s))) as Hin.
    { apply List.filter_In. split; [by apply list_elem_of_In | done]. }
    rewrite Hf in Hin. destruct Hin.
  - split; [discriminate|]. intros Hall.
    assert (In r0 (List.filter c (rows cls s))) as Hin
      by (rewrite Hf; by left).
    apply List.filter_In in Hin as [Hin Hc].
    apply list_elem_of_In in Hin. rewrite (Hall r0 Hin) in Hc. discriminate.
Qed.

Lemma get_first_match_witness :
  ∃ found : option cell,
    get Sample.User (λ _, true) None (Sample.at_rest [])
    = (Return found, Sample.at_rest [])
    ∧ found = Some (CEntity Sample.alice)
    ∧ (found = None ↔
       ∀ r, r ∈ rows Sample.User (Sample.at_rest []) → (λ _, true) r = false).
Proof.
  exact (get_first_match Sample.User (λ _, true) None (Sample.at_rest [])
           eq_refl).
Defined.


(** With [columns], what [scalars()] keeps of each row is the value of
    the first column alone. *)
Lemma filter_columns_first cls c relationship (col : column)
    (cols : list column) s :
  faults s = [] →
  filter cls c relationship (Some (col :: cols)) s
  = (Return ((λ r, CValue (getattr r col.2)) <$> List.filter c (rows col.1 s)),
     s).
Proof.
  intros Hf. destruct col as [ccls cname]. unfold filter.
  assert (∀ q, q_statement q = SELECT (Columns ((ccls, cname) :: cols)) →
               q_from q = None → q_where q = [c] →
               (res ← db_execute q; mret (scalars res)) s
               = (Return ((λ r, CValue (getattr r cname))
                            <$> List.filter c (rows ccls s)), s)) as Hq.
  { intros q Hst Hfrom Hwhere.
    unfold mbind at 1, M_bind, bind.
    erewrite db_execute_select by exact Hst.
    erewrite bind_return by (by apply await_db_quiet).
    unfold run. rewrite Hst. unfold mret, M_ret, ret. do 2 f_equal.
    unfold source_rows, from_clause. rewrite Hfrom, Hst.
    assert (List.filter (matches q) (rows ccls s) = List.filter c (rows ccls s))
      as ->.
    { apply List.filter_ext. intros r. unfold matches. rewrite Hwhere; simpl.
      by rewrite andb_true_r. }
    induction (List.filter c (rows ccls s)) as [|r rs IH]; [done|].
    simpl. by f_equal. }
  destruct relationship as [rel|]; by apply Hq.
Qed.

(** C8: [filter] with two columns. The claim has the selected fields of
    each matching row in the result; the result holds the first column
    only, here the ids and none of the names. *)
Theorem filter_columns_keeps_first_only :
  filter Sample.User (λ _, true) None
    (Some [(Sample.User, "id"); (Sample.User, "name")]) (Sample.at_rest [])
  = (Return [CValue (VInt 1); CValue (VInt 2)], Sample.at_rest []).
Proof. reflexivity. Qed.

End ReadingClaims.

(** ** [commit]: what is caught and what is not *)

Section CommitClaims.
Import AbstractClass.
Implicit Types (s : session) (e : exn).

(** A commit that raises has made nothing durable and printed nothing. *)
Lemma db_commit_raise_keeps s e s1 :
  db_commit s = (Raise e, s1) →
  committed s1 = committed s ∧ stdout s1 = stdout s.
Proof.
  unfold db_commit, mbind, M_bind, bind, await_db.
  assert (∀ s0, committed s0 = committed s → stdout s0 = stdout s →
            match db_flush s0 with
            | (Return a, s') => end_commit s'
            | (Raise e0, s') => (Raise e0, s')
            end = (Raise e, s1) →
            committed s1 = committed s ∧ stdout s1 = stdout s) as Hflush.
  { intros s0 Hc Ho. unfold db_flush.
    destruct (flush_all (pending s0) s0) as [[[]|e0] s']; [discriminate|].
    intros [= <- <-]. done. }
  destruct (faults s) as [|[e0|] fs]; simpl.
  - by apply Hflush.
  - by intros [= <- <-].
  - by apply Hflush.
Qed.

(** An exception that is not an [Exception] passes through [commit]. *)
Lemma commit_passes_BaseException s e s1 :
  db_commit s = (Raise e, s1) → is_Exception e = false →
  commit s = (Raise e, s1).
Proof.
  intros H He. unfold commit, try_except_Exception. by rewrite H, He.
Qed.

(** C1, amended: when the session's commit raises an instance of
    [Exception], [commit] catches it, prints it and issues a rollback,
    and what the caller sees is the outcome of that rollback; it does not
    see the commit's exception. If the rollback returns, [commit] returns
    normally, nothing was made durable, the transaction's changes are
    dropped and no instance stays staged. *)
Theorem commit_catches_Exception s e s1 :
  db_commit s = (Raise e, s1) →
  is_Exception e = true →
  let printed := set_stdout (stdout s1 ++ [str e]) s1 in
  commit s = db_rollback printed
  ∧ ∀ s2, db_rollback printed = (Return tt, s2) →
      commit s = (Return tt, s2)
      ∧ stdout s2 = stdout s ++ [str e]
      ∧ committed s2 = committed s
      ∧ working s2 = committed s
      ∧ pending s2 = [].
Proof.
  intros H He printed.
  assert (commit s = db_rollback printed) as Hc.
  { unfold commit, try_except_Exception. rewrite H, He. done. }
  split; [done|]. intros s2 Hr. split; [congruence|].
  destruct (db_commit_raise_keeps _ _ _ H) as [Hcom Hout].
  revert Hr. unfold db_rollback, mbind, M_bind, bind, await_db, end_rollback.
  destruct (faults printed) as [|[e0|] fs]; simpl;
    [ | discriminate | ]; intros [= <-]; simpl; by rewrite Hcom, Hout.
Qed.

Lemma commit_catches_Exception_witness :
  let s := Sample.at_rest [Some (IntegrityError "unique constraint")] in
  commit s = (Return tt, set_stdout ["unique constraint"] (Sample.at_rest []))
  ∧ committed (Sample.at_rest []) = committed s.
Proof.
  intros s.
  destruct (commit_catches_Exception s (IntegrityError "unique constraint")
              (Sample.at_rest []) eq_refl eq_refl) as [_ H].
  destruct (H (set_stdout ["unique constraint"] (Sample.at_rest [])) eq_refl)
    as (H1 & _ & H2 & _).
  exact (conj H1 H2).
Defined.

(** C1 as stated fails: a [CancelledError] raised by the awaited commit is
    not an [Exception], so it reaches the caller and no rollback is
    issued; and an exception raised by the rollback reaches the caller
    too. *)
Lemma commit_error_reaches_caller :
  commit (Sample.at_rest [Some CancelledError])
  = (Raise CancelledError, Sample.at_rest [])
  ∧ commit (Sample.at_rest [Some (IntegrityError "unique constraint");
                            Some (OperationalError "connection closed")])
    = (Raise (OperationalError "connection closed"),
       set_stdout ["unique constraint"] (Sample.at_rest [])).
Proof. split; reflexivity. Qed.

End CommitClaims.

(** ** Errors of the database in the other operations *)

Section ErrorClaims.
Import AbstractClass.
Implicit Types (cls : entity_class) (c : criteria) (s : session) (e : exn).

Lemma db_execute_fault (q : query) s e fs :
  compile q s = (Return tt, s) →
  faults s = Some e :: fs →
  db_execute q s = (Raise e, set_faults fs s).
Proof.
  intros Hc Hf. unfold db_execute.
  erewrite bind_return by exact Hc.
  apply bind_raise. by apply await_db_fault.
Qed.

(** What [delete] does, by the state of the instance it is called on. *)
Lemma delete_run (self : loc) (inst : instance) s :
  heap s !! self = Some inst →
  delete self s
  = if inst_expired inst
    then (Raise (MissingGreenlet "greenlet_spawn has not been called"), s)
    else delete_by_id (inst_class inst) (getattr (inst_attrs inst) "id") s.
Proof.
  intros H. unfold delete, type_of, read_attr.
  unfold mbind at 1, M_bind, bind. rewrite H.
  unfold mbind at 1, M_bind, bind. rewrite H.
  by destruct (inst_expired inst).
Qed.

(** C9, amended: [get], [filter], [count] and [run_query] raise whatever
    the execution of their statement raises, unchanged; so does [delete]
    for the execution of its DELETE statement, which it reaches when the
    instance is loaded. (The commit that ends [delete] goes through
    [commit], which catches.) *)
Theorem execute_errors_propagate cls c relationship columns_ (q : query)
    (self : loc) s e fs :
  faults s = Some e :: fs →
  get cls c relationship s = (Raise e, set_faults fs s)
  ∧ filter cls c relationship columns_ s = (Raise e, set_faults fs s)
  ∧ count cls s = (Raise e, set_faults fs s)
  ∧ (∀ inst, heap s !! self = Some inst → inst_expired inst = false →
       delete self s = (Raise e, set_faults fs s))
  ∧ (∀ e' s1, db_execute q s = (Raise e', s1) →
       run_query cls q s = (Raise e', s1)).
Proof.
  intros Hf. repeat split.
  - unfold get. apply bind_raise.
    destruct relationship; by apply db_execute_fault.
  - unfold filter. apply bind_raise.
    destruct columns_ as [[|col cols]|], relationship;
      by apply db_execute_fault.
  - unfold count. apply bind_raise. by apply db_execute_fault.
  - intros inst Hself Hloaded. rewrite (delete_run _ _ _ Hself), Hloaded.
    unfold delete_by_id. apply bind_raise. by apply db_execute_fault.
  - intros e' s1 H. unfold run_query. by apply bind_raise.
Qed.

Lemma execute_errors_propagate_witness :
  let s := Sample.with_alice [Some (OperationalError "connection closed")] in
  get Sample.User (col_eq "id" (VInt 1)) None s
  = (Raise (OperationalError "connection closed"), set_faults [] s)
  ∧ delete 0 s
    = (Raise (OperationalError "connection closed"), set_faults [] s).
Proof.
  intros s.
  destruct (execute_errors_propagate Sample.User (col_eq "id" (VInt 1))
              None None (select Sample.User) 0
              s (OperationalError "connection closed") [] eq_refl)
    as (Hget & _ & _ & Hdelete & _).
  exact (conj Hget (Hdelete Sample.alice_loaded eq_refl eq_refl)).
Defined.

(** C9 as stated fails for [delete]: an error of the database at the
    commit (here a constraint checked at commit time) is caught by
    [commit]; [delete] returns normally and the row is still there. *)
Lemma delete_hides_commit_error :
  let s := Sample.with_alice [None; Some (IntegrityError "foreign key")] in
  delete 0 s
  = (Return tt,
     set_heap [expire Sample.alice_loaded]
       (set_stdout ["foreign key"] (Sample.with_alice []))).
Proof. vm_compute. reflexivity. Qed.

(** ** The two ways to delete *)

(** C10, amended: on an instance whose attributes are loaded,
    [obj.delete()] does to the session and the database exactly what
    [delete_by_id] of the class of [obj] does with the [id] of [obj]. *)
Theorem delete_is_delete_by_id (self : loc) (inst : instance) s :
  heap s !! self = Some inst →
  inst_expired inst = false →
  delete self s
  = delete_by_id (inst_class inst) (getattr (inst_attrs inst) "id") s.
Proof.
  intros Hself Hloaded. by rewrite (delete_run _ _ _ Hself), Hloaded.
Qed.

Lemma delete_is_delete_by_id_witness :
  delete 0 (Sample.with_alice [])
  = delete_by_id Sample.User (VInt 1) (Sample.with_alice []).
Proof.
  exact (delete_is_delete_by_id 0 Sample.alice_loaded (Sample.with_alice [])
           eq_refl eq_refl).
Defined.

(** C10 as stated fails on an instance that a rollback has expired. A
    [create] saves carol with id 3; a second [create], with the id of
    alice, fails at the commit, which is caught and rolled back. The
    instance of carol is still persistent and her row is there, but
    [self.id] can no longer be read: [delete] raises before it builds
    any statement and deletes nothing, while [delete_by_id] with her id
    deletes her row. *)
Lemma delete_of_expired_instance_raises :
  let s1 := (create Sample.User {[ "name" := VStr "carol" ]}
               (Sample.at_rest [])).2 in
  let s2 := (create Sample.User {[ "id" := VInt 1 ]} s1).2 in
  let carol := <["id" := VInt 3]> {[ "name" := VStr "carol" ]} in
  (inst_key <$> heap s2 !! 0) = Some (Some (VInt 3))
  ∧ rows Sample.User s2 = [Sample.alice; Sample.bob; carol]
  ∧ delete 0 s2
    = (Raise (MissingGreenlet "greenlet_spawn has not been called"), s2)
  ∧ (delete_by_id Sample.User (VInt 3) s2).1 = Return tt
  ∧ rows Sample.User (delete_by_id Sample.User (VInt 3) s2).2
    = [Sample.alice; Sample.bob].
Proof.
  intros s1 s2 carol.
  split; [|split; [|split; [|split]]]; vm_compute; reflexivity.
Qed.

End ErrorClaims.

(** ** Rows and keys *)

Section Keys.
Context {A K : Type} `{EqDecision K} (key : A → K).
Implicit Types (l : list A) (k : K).

Lemma filter_out_absent l k :
  (∀ x, x ∈ l → key x ≠ k) →
  List.filter (λ x, negb (bool_decide (key x = k))) l = l.
Proof.
  induction l as [|x l IH]; intros H; [done|]. simpl.
  rewrite bool_decide_eq_false_2 by (apply H; by left). simpl.
  f_equal. apply IH. intros y Hy. apply H. by right.
Qed.

Lemma filter_in_absent l k :
  (∀ x, x ∈ l → key x ≠ k) →
  List.filter (λ x, bool_decide (key x = k)) l = [].
Proof.
  induction l as [|x l IH]; intros H; [done|]. simpl.
  rewrite bool_decide_eq_false_2 by (apply H; by left).
  apply IH. intros y Hy. apply H. by right.
Qed.

Lemma nodup_key_others l x :
  NoDup (key <$> (x :: l)) → ∀ y, y ∈ l → key y ≠ key x.
Proof.
  rewrite fmap_cons, NoDup_cons. intros [Hx _] y Hy Heq.
  apply Hx. rewrite <- Heq. by apply list_elem_of_fmap_2.
Qed.

(** A key that occurs in a table without duplicate keys selects one row. *)
Lemma filter_in_unique l x :
  NoDup (key <$> l) → x ∈ l →
  List.filter (λ y, bool_decide (key y = key x)) l = [x].
Proof.
  induction l as [|y l IH]; intros Hnd Hx; [by apply elem_of_nil in Hx|].
  simpl. apply elem_of_cons in Hx as [->|Hx].
  - rewrite bool_decide_eq_true_2 by done. f_equal.
    apply filter_in_absent. by apply nodup_key_others.
  - rewrite bool_decide_eq_false_2.
    + apply IH; [|done]. rewrite fmap_cons in Hnd. by apply NoDup_cons in Hnd as [_ ?].
    + intros Heq. by apply (nodup_key_others _ _ Hnd x Hx).
Qed.

Lemma filter_out_unique l x :
  NoDup (key <$> l) → x ∈ l →
  S (length (List.filter (λ y, negb (bool_decide (key y = key x))) l))
  = length l.
Proof.
  induction l as [|y l IH]; intros Hnd Hx; [by apply elem_of_nil in Hx|].
  simpl. apply elem_of_cons in Hx as [->|Hx].
  - rewrite bool_decide_eq_true_2 by done. simpl. f_equal.
    rewrite filter_out_absent; [done|]. by apply nodup_key_others.
  - rewrite bool_decide_eq_false_2.
    + simpl. f_equal. apply IH; [|done].
      rewrite fmap_cons in Hnd. by apply NoDup_cons in Hnd as [_ ?].
    + intros Heq. by apply (nodup_key_others _ _ Hnd x Hx).
Qed.

End Keys.

Lemma filter_fmap {A B} (f : A → B) (p : B → bool) (l : list A) :
  List.filter p (f <$> l) = f <$> List.filter (λ x, p (f x)) l.
Proof.
  induction l as [|x l IH]; [done|].
  rewrite fmap_cons. simpl List.filter.
  destruct (p (f x)); by rewrite IH.
Qed.

Lemma fmap_unchanged {A} (f : A → A) (l : list A) :
  (∀ x, x ∈ l → f x = x) → f <$> l = l.
Proof.
  induction l as [|x l IH]; intros H; [done|]. simpl.
  rewrite H by (by left). f_equal. apply IH. intros y Hy. apply H. by right.
Qed.

Lemma filter_partition {A} (p : A → bool) (l : list A) :
  List.filter (λ x, negb (p x)) l ++ List.filter p l ≡ₚ l.
Proof.
  induction l as [|x l IH]; [done|]. simpl.
  destruct (p x); simpl.
  - rewrite <- Permutation_middle. by constructor.
  - by constructor.
Qed.

Lemma filter_of_rejected {A} (p : A → bool) (l : list A) :
  List.filter p (List.filter (λ x, negb (p x)) l) = [].
Proof.
  induction l as [|x l IH]; [done|]. simpl.
  destruct (p x) eqn:Hp; simpl; [done|]. by rewrite Hp.
Qed.

Lemma filter_of_kept {A} (p : A → bool) (l : list A) :
  List.filter p (List.filter p l) = List.filter p l.
Proof.
  induction l as [|x l IH]; [done|]. simpl.
  destruct (p x) eqn:Hp; simpl; [|done]. by rewrite Hp, IH.
Qed.

Lemma update_rows_ext (c c' : criteria) (vals : attrs) (t : table) :
  (∀ r, c r = c' r) → update_rows c vals t = update_rows c' vals t.
Proof.
  intros H. unfold update_rows. f_equal.
  - apply List.filter_ext. intros r. by rewrite H.
  - f_equal. by apply List.filter_ext.
Qed.

(** An UPDATE that matches no row leaves the table as it is. *)
Lemma update_rows_no_match (k : value) (vals : attrs) (t : table) :
  (∀ r, r ∈ t → getattr r "id" ≠ k) →
  update_rows (col_eq "id" k) vals t = t.
Proof.
  intros H. unfold update_rows.
  assert (List.filter (λ r, negb (col_eq "id" k r)) t = t) as ->
    by (by apply (filter_out_absent (λ r : row, getattr r "id"))).
  assert (List.filter (col_eq "id" k) t = []) as ->
    by (by apply (filter_in_absent (λ r : row, getattr r "id"))).
  apply app_nil_r.
Qed.

Lemma pk_ok_nodup (t : table) :
  pk_ok t = true → NoDup ((λ r, getattr r "id") <$> t).
Proof.
  unfold pk_ok. intros H. apply andb_true_iff in H as [_ H].
  by apply bool_decide_eq_true in H.
Qed.

Lemma col_eq_key (k : value) (r : row) :
  col_eq "id" k r = bool_decide (getattr r "id" = k).
Proof. done. Qed.

(** Writing back the rows of a table leaves every table as it was. *)
Lemma rows_insert_same (w : gmap string table) (t t' : string) :
  (<[t := w !!! t]> w) !!! t' = w !!! t'.
Proof.
  destruct (decide (t = t')) as [->|Hne].
  - by rewrite lookup_total_insert_eq.
  - by rewrite lookup_total_insert_ne.
Qed.

(** ** Writing: [delete_by_id] and [update] *)

Section Writing.
Import AbstractClass.
Implicit Types (cls : entity_class) (c : criteria) (s : session).

(** With nothing staged and a database that raises nothing, [commit]
    makes the transaction durable. *)
Lemma commit_quiet s :
  faults s = [] → pending s = [] →
  commit s = (Return tt, set_committed (working s) s).
Proof.
  intros Hf Hp.
  unfold commit, try_except_Exception, db_commit, mbind, M_bind, bind.
  rewrite await_db_quiet by done.
  unfold db_flush. rewrite Hp. simpl.
  by rewrite set_pending_same.
Qed.

Lemma db_execute_delete cls c s :
  faults s = [] →
  db_execute (where_ c (sqlalchemy_delete cls)) s
  = (Return [],
     set_working
       (<[table_of cls := List.filter (λ r, negb (c r)) (rows cls s)]>
          (working s)) s).
Proof.
  intros Hf. unfold db_execute, compile; simpl.
  unfold mbind, M_bind, bind, mret, M_ret, ret.
  rewrite await_db_quiet by done.
  unfold run; simpl. do 3 f_equal.
  apply List.filter_ext. intros r. by rewrite matches_where.
Qed.

Lemma delete_by_id_quiet cls id_ s :
  faults s = [] → pending s = [] →
  let w := <[table_of cls :=
               List.filter (λ r, negb (col_eq "id" id_ r)) (rows cls s)]>
             (working s) in
  delete_by_id cls id_ s = (Return tt, set_committed w (set_working w s)).
Proof.
  intros Hf Hp w. unfold delete_by_id.
  erewrite bind_return by (by apply db_execute_delete).
  by rewrite commit_quiet.
Qed.

Lemma db_execute_update cls c kwargs s :
  faults s = [] →
  known_columns cls kwargs = true →
  let tbl := update_rows c kwargs (rows cls s) in
  pk_ok tbl = true →
  db_execute
    (execution_options "synchronize_session" "fetch"
       (values kwargs (where_ c (sqlalchemy_update cls)))) s
  = (Return [], set_working (<[table_of cls := tbl]> (working s)) s).
Proof.
  intros Hf Hk tbl Hpk.
  assert (kwargs ∪ ∅ = kwargs) as Hu by apply (right_id_L ∅ (∪)).
  unfold db_execute, compile; simpl. rewrite Hu, Hk.
  unfold mbind, M_bind, bind, mret, M_ret, ret.
  rewrite await_db_quiet by done.
  unfold run; simpl. rewrite Hu.
  assert (update_rows
            (matches
               (execution_options "synchronize_session" "fetch"
                  (values kwargs (where_ c (sqlalchemy_update cls)))))
            kwargs (working s !!! table_of cls) = tbl) as ->.
  { unfold tbl, rows. apply update_rows_ext. intros r.
    unfold matches; simpl. by rewrite andb_true_r. }
  by rewrite Hpk.
Qed.

Lemma update_quiet cls id_ kwargs s :
  faults s = [] → pending s = [] →
  known_columns cls kwargs = true →
  let tbl := update_rows (col_eq "id" id_) kwargs (rows cls s) in
  pk_ok tbl = true →
  let w := <[table_of cls := tbl]> (working s) in
  update cls id_ kwargs s = (Return tt, set_committed w (set_working w s)).
Proof.
  intros Hf Hp Hk tbl Hpk w. unfold update.
  erewrite bind_return by (by apply db_execute_update).
  by rewrite commit_quiet.
Qed.

End Writing.

Section WritingClaims.
Import AbstractClass.
Implicit Types (cls : entity_class) (c : criteria) (s : session).

(** C4: after [delete_by_id(id)], [get] by that id returns [None]; the
    count is one less when a row had the id, and the same, with no error,
    when none had. *)
Theorem delete_by_id_then_get_and_count cls id_ s :
  faults s = [] → pending s = [] → pk_ok (rows cls s) = true →
  ∃ s1 n n1,
    delete_by_id cls id_ s = (Return tt, s1)
    ∧ get cls (col_eq "id" id_) None s1 = (Return None, s1)
    ∧ count cls s = (Return (Some (CValue (VInt n))), s)
    ∧ count cls s1 = (Return (Some (CValue (VInt n1))), s1)
    ∧ ((∃ r, r ∈ rows cls s ∧ getattr r "id" = id_) → n1 = (n - 1)%Z)
    ∧ ((∀ r, r ∈ rows cls s → getattr r "id" ≠ id_) → n1 = n).
Proof.
  intros Hf Hp Hpk.
  set (left := List.filter (λ r, negb (col_eq "id" id_ r)) (rows cls s)).
  set (w := <[table_of cls := left]> (working s)).
  set (s1 := set_committed w (set_working w s)).
  assert (rows cls s1 = left) as Hrows.
  { unfold rows, s1, w; simpl. by rewrite lookup_total_insert_eq. }
  exists s1, (Z.of_nat (length (rows cls s))), (Z.of_nat (length left)).
  split; [by apply delete_by_id_quiet|].
  split.
  { rewrite get_quiet by done. rewrite Hrows. do 2 f_equal.
    assert (List.filter (col_eq "id" id_) left = []) as ->; [|done].
    apply (filter_in_absent (λ r : row, getattr r "id")).
    intros r Hr Hid. apply list_elem_of_In, List.filter_In in Hr as [_ Hr].
    rewrite col_eq_key, bool_decide_eq_true_2 in Hr by done. discriminate. }
  split; [by apply count_quiet|].
  split; [by rewrite count_quiet, Hrows|].
  split.
  - intros (r & Hr & Hid). subst id_.
    assert (S (length left) = length (rows cls s)) as Hlen
      by exact (filter_out_unique (λ r : row, getattr r "id") _ r
                  (pk_ok_nodup _ Hpk) Hr).
    lia.
  - intros Habs.
    assert (left = rows cls s) as ->; [|done].
    by apply (filter_out_absent (λ r : row, getattr r "id")).
Qed.

Lemma delete_by_id_then_get_and_count_witness :
  ∃ s1,
    delete_by_id Sample.User (VInt 1) (Sample.at_rest []) = (Return tt, s1)
    ∧ get Sample.User (col_eq "id" (VInt 1)) None s1 = (Return None, s1)
    ∧ count Sample.User (Sample.at_rest [])
      = (Return (Some (CValue (VInt 2))), Sample.at_rest [])
    ∧ count Sample.User s1 = (Return (Some (CValue (VInt 1))), s1).
Proof.
  destruct (delete_by_id_then_get_and_count Sample.User (VInt 1)
              (Sample.at_rest []) eq_refl eq_refl eq_refl)
    as (s1 & n & n1 & Hd & Hg & Hn & Hn1 & Hpresent & _).
  exists s1. split; [exact Hd|]. split; [exact Hg|].
  assert (n = 2%Z) as -> by (vm_compute in Hn; congruence).
  split; [exact Hn|].
  rewrite Hn1. rewrite Hpresent; [reflexivity|].
  exists Sample.alice. split; [left | reflexivity].
Defined.

(** C6: [update] with an id that no row has returns normally and leaves
    every table, row for row, as it was; the count is the same. *)
Theorem update_missing_id_is_noop cls id_ kwargs s :
  faults s = [] → pending s = [] → pk_ok (rows cls s) = true →
  known_columns cls kwargs = true →
  (∀ r, r ∈ rows cls s → getattr r "id" ≠ id_) →
  ∃ s1,
    update cls id_ kwargs s = (Return tt, s1)
    ∧ (∀ cls', rows cls' s1 = rows cls' s)
    ∧ (count cls s1).1 = (count cls s).1.
Proof.
  intros Hf Hp Hpk Hk Habs.
  pose proof (update_rows_no_match id_ kwargs (rows cls s) Habs) as Hsame.
  eexists. split.
  { apply update_quiet; try done. by rewrite Hsame. }
  rewrite Hsame.
  assert (∀ cls', rows cls'
            (set_committed (<[table_of cls := rows cls s]> (working s))
               (set_working (<[table_of cls := rows cls s]> (working s)) s))
          = rows cls' s) as Hrows.
  { intros cls'. unfold rows; simpl. apply rows_insert_same. }
  split; [done|].
  by rewrite !count_quiet, Hrows.
Qed.

Lemma update_missing_id_is_noop_witness :
  ∃ s1,
    update Sample.User (VInt 7) {[ "name" := VStr "carol" ]}
      (Sample.at_rest []) = (Return tt, s1)
    ∧ ∀ cls', rows cls' s1 = rows cls' (Sample.at_rest []).
Proof.
  destruct (update_missing_id_is_noop Sample.User (VInt 7)
              {[ "name" := VStr "carol" ]} (Sample.at_rest []))
    as (s1 & Hu & Hrows & _); try (vm_compute; reflexivity).
  - intros r Hr.
    apply elem_of_cons in Hr as [->|Hr]; [discriminate|].
    apply elem_of_cons in Hr as [->|Hr]; [discriminate|].
    by apply elem_of_nil in Hr.
  - exists s1. exact (conj Hu Hrows).
Defined.

End WritingClaims.

Section UpdateClaims.
Import AbstractClass.
Implicit Types (cls : entity_class) (c : criteria) (s : session).

(** Values that leave [id] alone keep every key, so the primary-key
    constraint still holds after the UPDATE. *)
Lemma update_keeps_key (kwargs : attrs) (r : row) :
  kwargs !! "id" = None → getattr (kwargs ∪ r) "id" = getattr r "id".
Proof. intros H. unfold getattr. by rewrite lookup_union_r. Qed.

Lemma update_keeps_pk_ok (c : criteria) (kwargs : attrs) (t : table) :
  kwargs !! "id" = None → pk_ok t = true →
  pk_ok (update_rows c kwargs t) = true.
Proof.
  intros Hid. unfold pk_ok, int_key, update_rows.
  intros H. apply andb_true_iff in H as [Hall Hnd].
  rewrite forallb_forall in Hall.
  assert ((λ r, getattr r "id") <$> ((λ r, kwargs ∪ r) <$> List.filter c t)
          = (λ r, getattr r "id") <$> List.filter c t) as Hids.
  { rewrite <- list_fmap_compose. apply list_fmap_ext. intros _ r _.
    by apply update_keeps_key. }
  apply andb_true_iff. split.
  - rewrite forallb_app. apply andb_true_iff. split.
    + apply forallb_forall. intros r Hr.
      apply List.filter_In in Hr as [Hr _]. by apply Hall.
    + apply forallb_forall. intros r' Hr'.
      apply list_elem_of_In, list_elem_of_fmap in Hr' as (r & -> & Hr).
      rewrite update_keeps_key by done.
      apply list_elem_of_In, List.filter_In in Hr as [Hr _]. by apply Hall.
  - apply bool_decide_eq_true. apply bool_decide_eq_true in Hnd.
    rewrite fmap_app, Hids, <- fmap_app.
    by rewrite filter_partition.
Qed.

(** C5, amended: for values that do not assign the primary key,
    [update(id, **values)] of an existing row followed by [get] by that id
    returns the row with the values written over it, so every field given
    has its new value. *)
Theorem update_then_get cls id_ kwargs s (r0 : row) :
  faults s = [] → pending s = [] → pk_ok (rows cls s) = true →
  known_columns cls kwargs = true →
  kwargs !! "id" = None →
  r0 ∈ rows cls s → getattr r0 "id" = id_ →
  ∃ s1,
    update cls id_ kwargs s = (Return tt, s1)
    ∧ get cls (col_eq "id" id_) None s1
      = (Return (Some (CEntity (kwargs ∪ r0))), s1)
    ∧ ∀ field v, kwargs !! field = Some v → (kwargs ∪ r0) !! field = Some v.
Proof.
  intros Hf Hp Hpk Hk Hid Hr0 Hkey.
  set (w := <[table_of cls :=
                update_rows (col_eq "id" id_) kwargs (rows cls s)]>
              (working s)).
  exists (set_committed w (set_working w s)).
  split; [apply update_quiet; try done; by apply update_keeps_pk_ok|].
  split; [|intros field v Hv; by apply lookup_union_Some_l].
  rewrite get_quiet by done. do 2 f_equal.
  assert (rows cls (set_committed w (set_working w s))
          = update_rows (col_eq "id" id_) kwargs (rows cls s)) as ->.
  { unfold rows, w; simpl. by rewrite lookup_total_insert_eq. }
  unfold update_rows. rewrite List.filter_app, filter_of_rejected.
  rewrite filter_fmap. simpl.
  assert (List.filter (λ r, col_eq "id" id_ (kwargs ∪ r))
            (List.filter (col_eq "id" id_) (rows cls s)) = [r0]) as ->; [|done].
  rewrite (List.filter_ext _ (col_eq "id" id_))
    by (intros r; by rewrite !col_eq_key, update_keeps_key).
  rewrite filter_of_kept. subst id_.
  exact (filter_in_unique (λ r : row, getattr r "id") _ r0
           (pk_ok_nodup _ Hpk) Hr0).
Qed.

Lemma update_then_get_witness :
  ∃ s1,
    update Sample.User (VInt 2) {[ "name" := VStr "robert" ]}
      (Sample.at_rest []) = (Return tt, s1)
    ∧ get Sample.User (col_eq "id" (VInt 2)) None s1
      = (Return (Some (CEntity ({[ "name" := VStr "robert" ]} ∪ Sample.bob))),
         s1).
Proof.
  destruct (update_then_get Sample.User (VInt 2) {[ "name" := VStr "robert" ]}
              (Sample.at_rest []) Sample.bob)
    as (s1 & Hu & Hg & _); try (vm_compute; reflexivity).
  - right; left.
  - exists s1. exact (conj Hu Hg).
Defined.

(** C5 as stated fails when the field is the primary key: after
    [update(1, id=7)] the row answers to 7, and [get] by id 1 finds
    nothing. *)
Lemma update_of_id_moves_row :
  ∃ s1,
    update Sample.User (VInt 1) {[ "id" := VInt 7 ]} (Sample.at_rest [])
    = (Return tt, s1)
    ∧ get Sample.User (col_eq "id" (VInt 1)) None s1 = (Return None, s1)
    ∧ get Sample.User (col_eq "id" (VInt 7)) None s1
      = (Return (Some (CEntity (<["id" := VInt 7]> Sample.alice))), s1).
Proof. eexists. repeat split; vm_compute; reflexivity. Qed.

End UpdateClaims.

(** ** [create] *)

Section CreateClaims.
Import AbstractClass.
Implicit Types (cls : entity_class) (c : criteria) (s : session).










Lemma head_filter_find {A} (p : A → bool) (l : list A) :
  head (List.filter p l) = find p l.
Proof. induction l as [|x l IH]; [done|]. simpl. by destruct (p x). Qed.

(** What a [refresh] that returns has done. *)
Lemma db_refresh_return obj s s1 :
  db_refresh obj s = (Return tt, s1) →
  ∃ inst r,
    heap s !! obj = Some inst
    ∧ find (col_eq "id" (getattr r "id")) (rows (inst_class inst) s1) = Some r
    ∧ heap s1 !! obj
      = Some {| inst_class := inst_class inst; inst_attrs := r;
                inst_key := Some (getattr r "id");
                inst_expired := false |}.
Proof.
  unfold db_refresh.
  destruct (heap s !! obj) as [inst|] eqn:Hobj; [|discriminate].
  destruct (inst_key inst) as [k|]; [|discriminate].
  unfold mbind, M_bind, bind. intros H.
  assert (∃ s', await_db s = (Return tt, s') ∧ heap s' = heap s
                ∧ ∀ cls, rows cls s' = rows cls s) as (s' & Ha & Hh & Hr).
  { unfold await_db in *. destruct (faults s) as [|[e|] fs];
      [by exists s | discriminate | by eexists]. }
  rewrite Ha in H. unfold reload in H.
  destruct (find _ _) as [r|] eqn:Hfind; [|discriminate].
  injection H as <-.
  assert (getattr r "id" = k) as Hk.
  { apply find_some in Hfind as [_ Hc].
    by apply bool_decide_eq_true in Hc. }
  exists inst, r. split; [done|]. rewrite Hk. split.
  - exact Hfind.
  - simpl. rewrite Hh. apply list_lookup_insert_eq.
    by apply lookup_lt_Some in Hobj.
Qed.


End CreateClaims.

Section CreateReturns.
Import AbstractClass.
Implicit Types (cls : entity_class) (s : session).

Lemma existsb_absent (k : value) (t : table) :
  (∀ r, r ∈ t → getattr r "id" ≠ k) → existsb (col_eq "id" k) t = false.
Proof.
  induction t as [|r t IH]; intros H; [done|]. simpl.
  rewrite col_eq_key, bool_decide_eq_false_2 by (apply H; by left).
  apply IH. intros r' Hr'. apply H. by right.
Qed.

Lemma find_last_fresh (k : value) (t : table) (r : row) :
  (∀ r', r' ∈ t → getattr r' "id" ≠ k) → getattr r "id" = k →
  find (col_eq "id" k) (t ++ [r]) = Some r.
Proof.
  intros H Hr. induction t as [|r' t IH]; simpl.
  - by rewrite col_eq_key, bool_decide_eq_true_2.
  - rewrite col_eq_key, bool_decide_eq_false_2 by (apply H; by left).
    apply IH. intros r'' Hr''. apply H. by right.
Qed.

(** The flush of a new instance whose key is free. *)
Lemma flush_one_fresh cls kwargs s obj k :
  heap s !! obj
  = Some {| inst_class := cls; inst_attrs := kwargs; inst_key := None;
            inst_expired := false |} →
  new_key cls kwargs s = Some k →
  (∀ r, r ∈ rows cls s → getattr r "id" ≠ VInt k) →
  ∃ s1,
    flush_one obj s = (Return tt, s1)
    ∧ heap s1
      = <[obj := {| inst_class := cls; inst_attrs := <["id" := VInt k]> kwargs;
                    inst_key := Some (VInt k);
                    inst_expired := false |}]> (heap s)
    ∧ working s1
      = <[table_of cls := rows cls s ++ [<["id" := VInt k]> kwargs]]> (working s)
    ∧ committed s1 = committed s ∧ faults s1 = faults s
    ∧ pending s1 = pending s ∧ stdout s1 = stdout s.
Proof.
  intros Hobj Hkey Hfresh. unfold flush_one. rewrite Hobj. simpl.
  unfold new_key in Hkey.
  destruct (getattr kwargs "id") as [|k'|]; [| |discriminate];
    injection Hkey as Hk.
  - unfold mbind, M_bind, bind, next_key, insert_instance; simpl.
    rewrite Hk. fold (rows cls s).
    rewrite existsb_absent by done. eexists. split; [done|]. done.
  - subst k'. unfold insert_instance; simpl. fold (rows cls s).
    rewrite existsb_absent by done. eexists. split; [done|]. done.
Qed.

(** [create] returns when the database raises nothing, nothing else is
    staged, the keywords name columns and the key is free; the instance
    carries the keywords and its key, and its row is added last. *)
Lemma create_returns cls kwargs s k :
  faults s = [] → pending s = [] →
  known_columns cls kwargs = true →
  new_key cls kwargs s = Some k →
  (∀ r, r ∈ rows cls s → getattr r "id" ≠ VInt k) →
  ∃ s1,
    create cls kwargs s = (Return (length (heap s)), s1)
    ∧ heap s1 !! length (heap s)
      = Some {| inst_class := cls; inst_attrs := <["id" := VInt k]> kwargs;
                inst_key := Some (VInt k);
                inst_expired := false |}
    ∧ rows cls s1 = rows cls s ++ [<["id" := VInt k]> kwargs]
    ∧ faults s1 = [] ∧ pending s1 = [].
Proof.
  intros Hf Hp Hk Hkey Hfresh.
  set (inst0 := {| inst_class := cls; inst_attrs := kwargs; inst_key := None;
                   inst_expired := false |}).
  set (l := length (heap s)).
  set (sb := set_pending [l] (set_heap (heap s ++ [inst0]) s)).
  destruct (flush_one_fresh cls kwargs sb l k)
    as (sf & Hflush & Hheap & Hwork & Hcom & Hfaults & Hpend & Hout);
    [by apply list_lookup_middle | done | done |].
  set (r := <["id" := VInt k]> kwargs) in *.
  set (inst1 := {| inst_class := cls; inst_attrs := r;
                   inst_key := Some (VInt k);
                   inst_expired := false |}) in *.
  assert (heap sf !! l = Some inst1) as Hl.
  { rewrite Hheap. apply list_lookup_insert_eq.
    unfold sb; simpl. rewrite length_app; simpl. unfold l. lia. }
  assert (commit sb = (Return tt, set_committed (working sf) (set_pending [] sf)))
    as Hcommit.
  { unfold commit, try_except_Exception, db_commit, mbind, M_bind, bind.
    rewrite await_db_quiet by done.
    unfold db_flush. simpl. unfold mbind, M_bind, bind.
    by rewrite Hflush. }
  set (sc := set_committed (working sf) (set_pending [] sf)) in *.
  assert (rows cls sc = rows cls s ++ [r]) as Hrows.
  { unfold rows, sc; simpl. rewrite Hwork.
    by rewrite lookup_total_insert_eq. }
  assert (refresh l sc = (Return tt, set_heap (<[l := inst1]> (heap sc)) sc))
    as Hrefresh.
  { unfold refresh, db_refresh. simpl. rewrite Hl. simpl.
    unfold mbind, M_bind, bind.
    rewrite await_db_quiet by (simpl; rewrite Hfaults; exact Hf).
    unfold reload. simpl inst_class. rewrite Hrows.
    rewrite find_last_fresh; [done | done |].
    unfold r, getattr. by rewrite lookup_insert_eq. }
  exists (set_heap (<[l := inst1]> (heap sc)) sc). split.
  { unfold create, construct. unfold mbind at 1, M_bind, bind.
    rewrite Hk. unfold mbind at 1, M_bind, bind, db_add.
    simpl. rewrite Hp. simpl. fold l inst0 sb.
    unfold mbind at 1, M_bind, bind. rewrite Hcommit.
    unfold mbind at 1, M_bind, bind. rewrite Hrefresh. done. }
  split.
  { simpl. apply list_lookup_insert_eq. by apply lookup_lt_Some in Hl. }
  split; [done|]. simpl. split; [rewrite Hfaults; exact Hf | done].
Qed.


End CreateReturns.

(** After a commit that failed and was caught, the instance is not
    persistent, and the [refresh] of [create] raises: the caller of
    [create] does see an error, though not the one of the commit. *)
Lemma create_after_failed_commit :
  (AbstractClass.create Sample.User {[ "id" := VInt 1 ]} (Sample.at_rest [])).1
  = Raise (InvalidRequestError "not persistent").
Proof. reflexivity. Qed.

(** * Further properties *)

(** ** The shape of a table name *)

Section NamingShape.
Import Naming.

Lemma length_append (a b : string) :
  String.length (a +:+ b) = String.length a + String.length b.
Proof.
  induction a as [|x a IH]; [done|]. rewrite append_cons. simpl. by rewrite IH.
Qed.

Lemma lower_append (a b : string) : lower (a +:+ b) = lower a +:+ lower b.
Proof.
  induction a as [|x a IH]; [done|]. rewrite append_cons. simpl.
  by rewrite IH, append_cons.
Qed.

Lemma length_lower (s : string) : String.length (lower s) = String.length s.
Proof. induction s as [|c s IH]; [done|]. simpl. by rewrite IH. Qed.

Lemma lower_char_idem (c : ascii) : lower_char (lower_char c) = lower_char c.
Proof.
  destruct c as [[] [] [] [] [] [] [] []]; reflexivity.
Qed.

Lemma lower_idem (s : string) : lower (lower s) = lower s.
Proof.
  induction s as [|c s IH]; [done|]. simpl. by rewrite lower_char_idem, IH.
Qed.

(** A one-character suffix of a string of two characters or more is a
    suffix of its tail. *)
Lemma endswith_char_cons (c d ch : ascii) (s : string) :
  endswith (String c (String d s)) (String ch "")
  = endswith (String d s) (String ch "").
Proof.
  unfold endswith. simpl String.length.
  by rewrite !Nat.sub_succ, !Nat.sub_0_r.
Qed.

Lemma endswith_append_char (a : string) (ch : ascii) :
  endswith (a +:+ String ch "") (String ch "") = true.
Proof.
  induction a as [|c a IH].
  - unfold endswith. simpl. by rewrite Ascii.eqb_refl.
  - rewrite append_cons. destruct a as [|d a].
    + unfold endswith. simpl. by rewrite Ascii.eqb_refl.
    + rewrite append_cons in *. by rewrite endswith_char_cons.
Qed.

Lemma length_slice_drop_last (s : string) :
  String.length (slice_drop_last s) = String.length s - 1.
Proof.
  unfold slice_drop_last.
  assert (∀ n t, n ≤ String.length t → String.length (slice_to n t) = n) as H.
  { induction n as [|n IH]; intros [|c t] Hn; simpl in *; try done; try lia.
    rewrite IH; [done | lia]. }
  apply H. lia.
Qed.

Lemma length_pluralize (s : string) :
  String.length (pluralize s)
  = String.length s + (if endswith s "y" then 2 else 1).
Proof.
  rewrite <- pluralize_source. rewrite length_append.
  destruct (endswith s "y") eqn:Hy; simpl; [|lia].
  rewrite length_append, length_slice_drop_last. simpl.
  assert (1 ≤ String.length s); [|lia].
  unfold endswith in Hy. apply andb_true_iff in Hy as [Hy _].
  by apply Nat.leb_le in Hy.
Qed.

Lemma length_underscore_capitals (s : string) :
  String.length (underscore_capitals true s) = String.length s + capitals s.
Proof.
  induction s as [|c s IH]; [done|]. simpl.
  destruct (isupper c); simpl; rewrite IH; lia.
Qed.

Lemma length_underscore_name (name : string) :
  String.length (underscore_capitals false name)
  = String.length name + internal_capitals name.
Proof.
  destruct name as [|c s]; [done|]. unfold internal_capitals. simpl.
  by rewrite length_underscore_capitals.
Qed.

(** The underscores do not change the last character. *)
Lemma endswith_underscore_capitals (b : bool) (s : string) (ch : ascii) :
  endswith (lower (underscore_capitals b s)) (String ch "")
  = endswith (lower s) (String ch "").
Proof.
  revert b. induction s as [|c s IH]; intros b; [done|].
  destruct s as [|d s].
  - simpl. destruct (b && isupper c); [|done]. simpl.
    by rewrite endswith_char_cons.
  - specialize (IH true).
    change (underscore_capitals b (String c (String d s)))
      with (if b && isupper c
            then String "_" (String c (underscore_capitals true (String d s)))
            else String c (underscore_capitals true (String d s))).
    change (lower (String c (String d s)))
      with (String (lower_char c) (lower (String d s))).
    assert (∀ x, endswith (String x (lower (underscore_capitals true (String d s))))
                   (String ch "")
                 = endswith (lower (String d s)) (String ch "")) as Hx.
    { intros x. rewrite <- IH. simpl.
      destruct (isupper d); simpl; by rewrite endswith_char_cons. }
    assert (endswith (String (lower_char c) (lower (String d s))) (String ch "")
            = endswith (lower (String d s)) (String ch "")) as ->
      by (simpl; by rewrite endswith_char_cons).
    destruct (b && isupper c); simpl lower.
    + rewrite endswith_char_cons. apply Hx.
    + apply Hx.
Qed.

(** X1: a table name is as long as the class name, plus one for each
    capital letter past the first character, plus two when the name ends
    in y or Y and one otherwise; and it ends in s. *)
Theorem tablename_length (name : string) :
  String.length (tablename name)
  = String.length name + internal_capitals name
    + (if endswith (lower name) "y" then 2 else 1)
  ∧ endswith (tablename name) "s" = true.
Proof.
  split.
  - rewrite tablename_refines. unfold tablename_spec.
    rewrite length_pluralize, length_lower, length_underscore_name.
    by rewrite endswith_underscore_capitals.
  - unfold tablename. apply endswith_append_char.
Qed.

Lemma lower_pluralize (s : string) :
  lower s = s → lower (pluralize s) = pluralize s.
Proof.
  induction s as [|c s IH]; [done|]. intros H.
  injection H as Hc Hs. destruct s as [|d s].
  - simpl. destruct (Ascii.eqb c "y"); [done|]. simpl. by rewrite Hc.
  - change (pluralize (String c (String d s)))
      with (String c (pluralize (String d s))).
    transitivity (String (lower_char c) (lower (pluralize (String d s))));
      [done|]. by rewrite Hc, (IH Hs).
Qed.

(** X2: a table name has no capital letter: lower-casing it changes
    nothing. *)
Theorem tablename_is_lowercase (name : string) :
  lower (tablename name) = tablename name.
Proof.
  rewrite tablename_refines. unfold tablename_spec.
  apply lower_pluralize, lower_idem.
Qed.

Lemma underscore_capitals_append (b : bool) (s t : string) :
  capitals t = 0 →
  underscore_capitals b (s +:+ t) = underscore_capitals b s +:+ t.
Proof.
  intros Ht.
  assert (∀ b', underscore_capitals b' t = t) as Hsame.
  { induction t as [|c t IH]; intros b'; [done|]. simpl in *.
    destruct (isupper c); [lia|]. rewrite andb_false_r.
    by rewrite IH. }
  revert b. induction s as [|c s IH]; intros b.
  - apply Hsame.
  - rewrite append_cons. simpl.
    destruct (b && isupper c); rewrite IH, ?append_cons; done.
Qed.

Lemma pluralize_y (s : string) : pluralize (s +:+ "y") = s +:+ "ies".
Proof.
  induction s as [|c s IH]; [done|]. rewrite !append_cons.
  destruct s as [|d s]; [done|].
  rewrite append_cons in *.
  change (pluralize (String c (String d (s +:+ "y"))))
    with (String c (pluralize (String d (s +:+ "y")))).
  by rewrite IH.
Qed.

Lemma pluralize_ie (s : string) : pluralize (s +:+ "ie") = s +:+ "ies".
Proof.
  induction s as [|c s IH]; [done|]. rewrite !append_cons.
  destruct s as [|d s]; [done|].
  rewrite append_cons in *.
  change (pluralize (String c (String d (s +:+ "ie"))))
    with (String c (pluralize (String d (s +:+ "ie")))).
  by rewrite IH.
Qed.

(** X3: different class names can share a table: a name in y and the
    same name in ie get one table name, and so do two names that differ
    in the case of their first letter. *)
Theorem tablename_collisions (c : ascii) (s : string) :
  tablename (s +:+ "y") = tablename (s +:+ "ie")
  ∧ tablename (String c s) = tablename (String (lower_char c) s).
Proof.
  rewrite !tablename_refines. unfold tablename_spec. split.
  - rewrite !underscore_capitals_append by done.
    rewrite !lower_append. change (lower "y") with "y".
    change (lower "ie") with "ie". by rewrite pluralize_y, pluralize_ie.
  - simpl. by rewrite lower_char_idem.
Qed.

End NamingShape.

(** ** [BaseModel.__str__] *)

Section Str.





End Str.

(** ** More on reading *)

Section MoreReading.
Import AbstractClass.
Implicit Types (cls : entity_class) (c : criteria) (s : session) (q : query).

(** A computation followed by a pure step. *)
Lemma bind_mret_run {A B} (m : M A) (f : A → B) s :
  (a ← m; mret (f a)) s = (outcome_map f (m s).1, (m s).2).
Proof.
  unfold mbind, M_bind, bind, mret, M_ret, ret.
  by destruct (m s) as [[a|e] s'].
Qed.

Lemma same_data_refl s : same_data s s.
Proof. by repeat split. Qed.

Lemma await_db_same_data s : same_data s (await_db s).2.
Proof.
  unfold await_db. destruct (faults s) as [|[e|] fs]; by repeat split.
Qed.


(** What a SELECT of whole entities returns, whatever the database does. *)
Lemma db_execute_entities cls c s :
  db_execute (where_ c (select cls)) s
  = (outcome_map (λ _ : unit, (λ r, [CEntity r]) <$> List.filter c (rows cls s))
       (await_db s).1,
     (await_db s).2).
Proof.
  erewrite db_execute_select by done. unfold mbind, M_bind, bind.
  pose proof (await_db_same_data s) as (_ & Hw & _).
  destruct (await_db s) as [[[]|e] s'] eqn:Ha; simpl in *; [|done].
  rewrite run_select_entities. unfold rows. by rewrite Hw.
Qed.

Lemma filter_run cls c relationship s :
  filter cls c relationship None s
  = (res ← db_execute (where_ c (select cls)); mret (scalars res)) s.
Proof.
  unfold filter. destruct relationship as [rel|]; [|done].
  unfold mbind, M_bind, bind, db_execute, compile; simpl.
  unfold mbind, M_bind, bind, mret, M_ret, ret.
  by destruct (await_db s) as [[[]|e] s'].
Qed.



(** X6: in every state of the session, [get] is the first element of
    what [filter] returns for the same criteria, [None] when that is
    empty; the two raise alike and leave the same session. *)
Theorem get_is_head_of_filter cls c relationship s :
  get cls c relationship s
  = (outcome_map head (filter cls c relationship None s).1,
     (filter cls c relationship None s).2).
Proof.
  rewrite get_run, filter_run, !bind_mret_run.
  erewrite <- db_execute_select by done.
  rewrite db_execute_entities.
  destruct (await_db s) as [[[]|e] s']; [|done].
  cbn [outcome_map fst snd].
  rewrite scalar_entities, scalars_entities.
  by destruct (List.filter c (rows cls s)).
Qed.


(** No statement commits. *)
Lemma db_execute_durable q s :
  committed (db_execute q s).2 = committed s
  ∧ pending (db_execute q s).2 = pending s
  ∧ stdout (db_execute q s).2 = stdout s.
Proof.
  unfold db_execute, mbind, M_bind, bind.
  assert ((compile q s).2 = s) as Hc.
  { unfold compile. destruct (q_statement q); try done.
    by destruct (known_columns _ _). }
  destruct (compile q s) as [[[]|e] s0]; simpl in Hc; subst s0; [|done].
  pose proof (await_db_same_data s) as (H1 & _ & _ & _ & H2 & H3).
  destruct (await_db s) as [[[]|e] s']; simpl in *; [|done].
  unfold run. destruct (q_statement q) as [what|ucls|dcls]; simpl; [done| |done].
  by destruct (pk_ok _).
Qed.

(** X8: [run_query] and [query_count] make nothing durable, whatever the
    statement they are given and whatever its outcome: also after an
    UPDATE or a DELETE passed to them, the durable contents of every
    table are as before. *)
Theorem run_query_never_commits cls q s :
  committed (run_query cls q s).2 = committed s
  ∧ committed (query_count cls q s).2 = committed s.
Proof.
  unfold run_query, query_count. rewrite !bind_mret_run. simpl.
  split; apply db_execute_durable.
Qed.



End MoreReading.

(** ** More on writing *)

Section MoreWriting.
Import AbstractClass.
Implicit Types (cls : entity_class) (c : criteria) (s : session) (q : query).




Lemma db_refresh_tables obj s :
  committed (db_refresh obj s).2 = committed s
  ∧ working (db_refresh obj s).2 = working s
  ∧ pending (db_refresh obj s).2 = pending s.
Proof.
  unfold db_refresh. destruct (heap s !! obj) as [inst|]; [|done].
  destruct (inst_key inst) as [k|]; [|done].
  unfold mbind, M_bind, bind.
  pose proof (await_db_same_data s) as (H1 & H2 & _ & _ & H3 & _).
  destruct (await_db s) as [[[]|e] s']; simpl in *; [|done].
  unfold reload. by destruct (find _ _).
Qed.



Lemma filter_sublist {A} (p : A → bool) (l : list A) :
  List.filter p l `sublist_of` l.
Proof.
  induction l as [|x l IH]; [done|]. simpl.
  destruct (p x); by constructor.
Qed.

Lemma rows_insert_other (w : gmap string table) (t t' : string) (x : table) :
  t' ≠ t → (<[t := x]> w) !!! t' = w !!! t'.
Proof. intros H. by rewrite lookup_total_insert_ne. Qed.

(** X11: an [update] that leaves the primary key alone keeps the number
    of rows, leaves every row with another id in the table and as it was,
    adds no row with another id, and touches no other table. (Where the
    rows stand in the table is the engine's business.) *)
Theorem update_frame cls id_ kwargs s :
  faults s = [] → pending s = [] → pk_ok (rows cls s) = true →
  known_columns cls kwargs = true →
  kwargs !! "id" = None →
  ∃ s1,
    update cls id_ kwargs s = (Return tt, s1)
    ∧ length (rows cls s1) = length (rows cls s)
    ∧ (∀ r, getattr r "id" ≠ id_ → r ∈ rows cls s1 ↔ r ∈ rows cls s)
    ∧ (∀ cls', table_of cls' ≠ table_of cls → rows cls' s1 = rows cls' s).
Proof.
  intros Hf Hp Hpk Hk Hid.
  set (w := <[table_of cls :=
                update_rows (col_eq "id" id_) kwargs (rows cls s)]>
              (working s)).
  exists (set_committed w (set_working w s)).
  split; [apply update_quiet; try done; by apply update_keeps_pk_ok|].
  assert (rows cls (set_committed w (set_working w s))
          = update_rows (col_eq "id" id_) kwargs (rows cls s)) as Hrows.
  { unfold rows, w; simpl. by rewrite lookup_total_insert_eq. }
  rewrite Hrows. unfold update_rows. split; [|split].
  - rewrite length_app, length_fmap, <- length_app.
    by rewrite filter_partition.
  - intros r Hne. rewrite elem_of_app, list_elem_of_fmap.
    rewrite !list_elem_of_In, List.filter_In, <- !list_elem_of_In.
    rewrite col_eq_key, negb_true_iff, bool_decide_eq_false. split.
    + intros [[Hr _] | (r' & -> & Hr')]; [done|].
      apply list_elem_of_In, List.filter_In in Hr' as [_ Hc].
      rewrite col_eq_key in Hc. apply bool_decide_eq_true in Hc.
      by rewrite update_keeps_key in Hne.
    + intros Hr. by left.
  - intros cls' Hne. unfold rows, w; simpl. by apply rows_insert_other.
Qed.

Lemma update_frame_witness :
  ∃ s1,
    update Sample.User (VInt 2) {[ "name" := VStr "robert" ]}
      (Sample.at_rest []) = (Return tt, s1)
    ∧ length (rows Sample.User s1) = 2
    ∧ (∀ r, getattr r "id" ≠ VInt 2 →
            r ∈ rows Sample.User s1 ↔ r ∈ rows Sample.User (Sample.at_rest []))
    ∧ (∀ cls', table_of cls' ≠ table_of Sample.User →
               rows cls' s1 = rows cls' (Sample.at_rest [])).
Proof.
  apply (update_frame Sample.User (VInt 2) {[ "name" := VStr "robert" ]}
           (Sample.at_rest [])); vm_compute; reflexivity.
Defined.

(** X12: [delete_by_id] removes the rows with the id and no other: what
    is left of the table is the rows with another id, in their order,
    and no other table is touched. *)
Theorem delete_by_id_frame cls id_ s :
  faults s = [] → pending s = [] →
  ∃ s1,
    delete_by_id cls id_ s = (Return tt, s1)
    ∧ (∀ r, r ∈ rows cls s1 ↔ r ∈ rows cls s ∧ getattr r "id" ≠ id_)
    ∧ rows cls s1 `sublist_of` rows cls s
    ∧ (∀ cls', table_of cls' ≠ table_of cls → rows cls' s1 = rows cls' s).
Proof.
  intros Hf Hp.
  set (left := List.filter (λ r, negb (col_eq "id" id_ r)) (rows cls s)).
  set (w := <[table_of cls := left]> (working s)).
  exists (set_committed w (set_working w s)).
  split; [by apply delete_by_id_quiet|].
  assert (rows cls (set_committed w (set_working w s)) = left) as ->.
  { unfold rows, w; simpl. by rewrite lookup_total_insert_eq. }
  split; [|split; [apply filter_sublist|]].
  - intros r. unfold left. rewrite !list_elem_of_In, List.filter_In.
    rewrite col_eq_key, negb_true_iff, bool_decide_eq_false. done.
  - intros cls' Hne. unfold rows, w; simpl. by apply rows_insert_other.
Qed.

Lemma delete_by_id_frame_witness :
  ∃ s1,
    delete_by_id Sample.User (VInt 1) (Sample.at_rest []) = (Return tt, s1)
    ∧ (∀ r, r ∈ rows Sample.User s1 ↔
            r ∈ rows Sample.User (Sample.at_rest []) ∧ getattr r "id" ≠ VInt 1)
    ∧ rows Sample.User s1 `sublist_of` rows Sample.User (Sample.at_rest [])
    ∧ (∀ cls', table_of cls' ≠ table_of Sample.User →
               rows cls' s1 = rows cls' (Sample.at_rest [])).
Proof.
  exact (delete_by_id_frame Sample.User (VInt 1) (Sample.at_rest [])
           eq_refl eq_refl).
Defined.

(** X13: deleting by the same id a second time changes nothing and
    raises nothing. *)
Theorem delete_by_id_twice cls id_ s :
  faults s = [] → pending s = [] →
  ∃ s1 s2,
    delete_by_id cls id_ s = (Return tt, s1)
    ∧ delete_by_id cls id_ s1 = (Return tt, s2)
    ∧ ∀ cls', rows cls' s2 = rows cls' s1.
Proof.
  intros Hf Hp.
  set (left := List.filter (λ r, negb (col_eq "id" id_ r)) (rows cls s)).
  set (w := <[table_of cls := left]> (working s)).
  set (s1 := set_committed w (set_working w s)).
  assert (rows cls s1 = left) as Hrows.
  { unfold rows, s1, w; simpl. by rewrite lookup_total_insert_eq. }
  assert (List.filter (λ r, negb (col_eq "id" id_ r)) (rows cls s1)
          = rows cls s1) as Hagain.
  { apply (filter_out_absent (λ r : row, getattr r "id")).
    intros r Hr. rewrite Hrows in Hr.
    apply list_elem_of_In, List.filter_In in Hr as [_ Hr].
    rewrite col_eq_key, negb_true_iff in Hr.
    by apply bool_decide_eq_false in Hr. }
  exists s1. eexists. split; [by apply delete_by_id_quiet|].
  split; [by apply delete_by_id_quiet|].
  intros cls'. rewrite Hagain. unfold rows at 1; simpl.
  apply rows_insert_same.
Qed.

Lemma delete_by_id_twice_witness :
  ∃ s1 s2,
    delete_by_id Sample.User (VInt 1) (Sample.at_rest []) = (Return tt, s1)
    ∧ delete_by_id Sample.User (VInt 1) s1 = (Return tt, s2)
    ∧ ∀ cls', rows cls' s2 = rows cls' s1.
Proof.
  exact (delete_by_id_twice Sample.User (VInt 1) (Sample.at_rest [])
           eq_refl eq_refl).
Defined.

End MoreWriting.

(** ** Failures in the middle of a write *)

Section FailedWrites.
Import AbstractClass.
Implicit Types (cls : entity_class) (c : criteria) (s : session) (e : exn).

(** X14: an error of the database while [update] or [delete_by_id]
    executes its statement reaches the caller as it is, [Exception] or
    not: nothing is printed, no rollback is issued, no data changes. *)
Theorem statement_errors_reach_caller cls id_ kwargs s e fs :
  faults s = Some e :: fs →
  known_columns cls kwargs = true →
  update cls id_ kwargs s = (Raise e, set_faults fs s)
  ∧ delete_by_id cls id_ s = (Raise e, set_faults fs s).
Proof.
  intros Hf Hk. split.
  - unfold update. apply bind_raise. apply db_execute_fault; [|done].
    unfold compile; simpl.
    assert (kwargs ∪ ∅ = kwargs) as -> by apply (right_id_L ∅ (∪)).
    by rewrite Hk.
  - unfold delete_by_id. apply bind_raise. by apply db_execute_fault.
Qed.

Lemma statement_errors_reach_caller_witness :
  let s := Sample.at_rest [Some (IntegrityError "foreign key")] in
  update Sample.User (VInt 1) {[ "name" := VStr "al" ]} s
  = (Raise (IntegrityError "foreign key"), Sample.at_rest [])
  ∧ delete_by_id Sample.User (VInt 1) s
    = (Raise (IntegrityError "foreign key"), Sample.at_rest []).
Proof.
  intros s.
  apply (statement_errors_reach_caller Sample.User (VInt 1)
           {[ "name" := VStr "al" ]} s (IntegrityError "foreign key") []);
    vm_compute; reflexivity.
Defined.

Lemma await_db_pass s fs :
  faults s = None :: fs → await_db s = (Return tt, set_faults fs s).
Proof. intros H. unfold await_db. by rewrite H. Qed.

(** A commit that fails on an [Exception], with a rollback that works. *)
Lemma commit_caught s e :
  faults s = [Some e] → is_Exception e = true →
  commit s
  = (Return tt,
     set_pending []
       (set_working (committed s)
          (set_heap (expire <$> heap s)
             (set_stdout (stdout s ++ [str e]) (set_faults [] s))))).
Proof.
  intros Hf He.
  unfold commit, try_except_Exception, db_commit.
  erewrite bind_raise by (by apply await_db_fault).
  rewrite He. unfold mbind, M_bind, bind, print, db_rollback.
  unfold mbind, M_bind, bind. by rewrite await_db_quiet.
Qed.

Lemma commit_rolls_back s e s1 :
  db_commit s = (Raise e, s1) → is_Exception e = true → faults s1 = [] →
  commit s
  = (Return tt,
     set_pending []
       (set_working (committed s1)
          (set_heap (expire <$> heap s1)
             (set_stdout (stdout s1 ++ [str e]) s1)))).
Proof.
  intros H He Hf. unfold commit, try_except_Exception. rewrite H, He.
  unfold mbind, M_bind, bind, print, db_rollback.
  unfold mbind, M_bind, bind. by rewrite await_db_quiet.
Qed.

(** X15: when the commit at the end of [delete_by_id] or [update] fails
    on an [Exception], the call returns normally, the exception is
    printed, and every table is as it was before the call: the caller
    cannot tell from the call that nothing was written. *)
Theorem failed_commit_is_silent cls id_ kwargs s e :
  closed s →
  faults s = [None; Some e] → is_Exception e = true →
  pk_ok (rows cls s) = true → known_columns cls kwargs = true →
  kwargs !! "id" = None →
  ∃ s1 s2,
    delete_by_id cls id_ s = (Return tt, s1)
    ∧ update cls id_ kwargs s = (Return tt, s2)
    ∧ (∀ cls', rows cls' s1 = rows cls' s ∧ rows cls' s2 = rows cls' s)
    ∧ committed s1 = committed s ∧ committed s2 = committed s
    ∧ stdout s1 = stdout s ++ [str e] ∧ stdout s2 = stdout s ++ [str e].
Proof.
  intros [Hp Hw] Hf He Hpk Hk Hid.
  assert (db_execute (where_ (col_eq "id" id_) (sqlalchemy_delete cls)) s
          = (Return [],
             set_working
               (<[table_of cls :=
                    List.filter (λ r, negb (col_eq "id" id_ r)) (rows cls s)]>
                  (working s)) (set_faults [Some e] s))) as Hdel.
  { unfold db_execute, compile; simpl.
    unfold mbind, M_bind, bind, mret, M_ret, ret.
    erewrite await_db_pass by exact Hf.
    unfold run; simpl. do 3 f_equal.
    apply List.filter_ext. intros r. by rewrite matches_where. }
  assert (db_execute
            (execution_options "synchronize_session" "fetch"
               (values kwargs
                  (where_ (col_eq "id" id_) (sqlalchemy_update cls)))) s
          = (Return [],
             set_working
               (<[table_of cls :=
                    update_rows (col_eq "id" id_) kwargs (rows cls s)]>
                  (working s))
               (set_faults [Some e] s))) as Hupd.
  { assert (kwargs ∪ ∅ = kwargs) as Hu by apply (right_id_L ∅ (∪)).
    unfold db_execute, compile; simpl. rewrite Hu, Hk.
    unfold mbind, M_bind, bind, mret, M_ret, ret.
    erewrite await_db_pass by exact Hf.
    unfold run; simpl. rewrite Hu.
    assert (update_rows
              (matches
                 (execution_options "synchronize_session" "fetch"
                    (values kwargs
                       (where_ (col_eq "id" id_) (sqlalchemy_update cls)))))
              kwargs (working s !!! table_of cls)
            = update_rows (col_eq "id" id_) kwargs (rows cls s)) as ->.
    { unfold rows. apply update_rows_ext. intros r.
      unfold matches; simpl. by rewrite andb_true_r. }
    by rewrite (update_keeps_pk_ok _ _ _ Hid Hpk). }
  eexists. eexists. split.
  { unfold delete_by_id. erewrite bind_return by exact Hdel.
    by apply commit_caught. }
  split.
  { unfold update. erewrite bind_return by exact Hupd.
    by apply commit_caught. }
  simpl. repeat split; unfold rows; simpl; by rewrite ?Hw.
Qed.

Lemma failed_commit_is_silent_witness :
  let s := Sample.at_rest [None; Some (OperationalError "connection closed")] in
  ∃ s1 s2,
    delete_by_id Sample.User (VInt 1) s = (Return tt, s1)
    ∧ update Sample.User (VInt 1) {[ "name" := VStr "al" ]} s = (Return tt, s2)
    ∧ (∀ cls', rows cls' s1 = rows cls' s ∧ rows cls' s2 = rows cls' s)
    ∧ committed s1 = committed s ∧ committed s2 = committed s
    ∧ stdout s1 = stdout s ++ ["connection closed"]
    ∧ stdout s2 = stdout s ++ ["connection closed"].
Proof.
  intros s.
  apply (failed_commit_is_silent Sample.User (VInt 1)
           {[ "name" := VStr "al" ]} s (OperationalError "connection closed"));
    try (vm_compute; reflexivity).
  split; reflexivity.
Defined.

End FailedWrites.

(** ** More on [create] and [refresh] *)

Section MoreCreate.
Import AbstractClass.
Implicit Types (cls : entity_class) (c : criteria) (s : session).

(** X16: when the database raises nothing, nothing else is staged, the
    keywords name columns and the key (the id given, or the next value
    of the sequence) is free, [create] returns an instance that carries
    the keywords and the key; its row is added after the rows that were
    there, [count] is one more, and [get] by the key returns the row. *)
Theorem create_adds_row cls kwargs s k :
  faults s = [] → pending s = [] →
  known_columns cls kwargs = true →
  new_key cls kwargs s = Some k →
  (∀ r, r ∈ rows cls s → getattr r "id" ≠ VInt k) →
  let new := <["id" := VInt k]> kwargs in
  ∃ obj s1,
    create cls kwargs s = (Return obj, s1)
    ∧ heap s1 !! obj
      = Some {| inst_class := cls; inst_attrs := new;
                inst_key := Some (VInt k);
                inst_expired := false |}
    ∧ rows cls s1 = rows cls s ++ [new]
    ∧ count cls s1
      = (Return (Some (CValue (VInt (Z.of_nat (length (rows cls s)) + 1)))),
         s1)
    ∧ get cls (col_eq "id" (VInt k)) None s1
      = (Return (Some (CEntity new)), s1).
Proof.
  intros Hf Hp Hk Hkey Hfresh new.
  destruct (create_returns cls kwargs s k Hf Hp Hk Hkey Hfresh)
    as (s1 & Hc & Hheap & Hrows & Hf1 & Hp1).
  exists (length (heap s)), s1. split; [done|]. split; [done|].
  split; [done|]. split.
  - rewrite count_quiet by done. rewrite Hrows, length_app. simpl.
    do 5 f_equal. lia.
  - rewrite get_quiet by done. rewrite head_filter_find, Hrows.
    rewrite find_last_fresh; [done | done |].
    unfold new, getattr. by rewrite lookup_insert_eq.
Qed.

Lemma create_adds_row_witness :
  let new := <["id" := VInt 3]> {[ "name" := VStr "carol" ]} in
  ∃ obj s1,
    create Sample.User {[ "name" := VStr "carol" ]} (Sample.at_rest [])
    = (Return obj, s1)
    ∧ heap s1 !! obj
      = Some {| inst_class := Sample.User; inst_attrs := new;
                inst_key := Some (VInt 3);
                inst_expired := false |}
    ∧ rows Sample.User s1 = rows Sample.User (Sample.at_rest []) ++ [new]
    ∧ count Sample.User s1
      = (Return
           (Some (CValue (VInt (Z.of_nat
                                  (length (rows Sample.User (Sample.at_rest [])))
                                + 1)))), s1)
    ∧ get Sample.User (col_eq "id" (VInt 3)) None s1
      = (Return (Some (CEntity new)), s1).
Proof.
  apply (create_adds_row Sample.User {[ "name" := VStr "carol" ]}
           (Sample.at_rest []) 3); try (vm_compute; reflexivity).
  intros r Hr.
  apply elem_of_cons in Hr as [->|Hr]; [discriminate|].
  apply elem_of_cons in Hr as [->|Hr]; [discriminate|].
  by apply elem_of_nil in Hr.
Defined.

Lemma set_sequences_same s : set_sequences (sequences s) s = s.
Proof. by destruct s. Qed.

Lemma existsb_present (k : value) (t : table) (r : row) :
  r ∈ t → getattr r "id" = k → existsb (col_eq "id" k) t = true.
Proof.
  intros Hr Hk. apply existsb_exists. exists r.
  split; [by apply list_elem_of_In|]. by rewrite col_eq_key, bool_decide_eq_true_2.
Qed.

(** X17: [create] with an id that a row already has does not raise the
    constraint violation: the commit's error is caught and printed, the
    instance is left unsaved, and the [refresh] that follows raises. The
    tables are as before and nothing stays staged. *)
Theorem create_duplicate_key cls kwargs s k (r : row) :
  faults s = [] → closed s →
  known_columns cls kwargs = true →
  getattr kwargs "id" = VInt k →
  r ∈ rows cls s → getattr r "id" = VInt k →
  ∃ s1,
    create cls kwargs s = (Raise (InvalidRequestError "not persistent"), s1)
    ∧ (∀ cls', rows cls' s1 = rows cls' s)
    ∧ committed s1 = committed s
    ∧ pending s1 = []
    ∧ stdout s1 = stdout s ++ [str (IntegrityError "duplicate key value")].
Proof.
  intros Hf [Hp Hw] Hk Hid Hr Hrk.
  set (inst0 := {| inst_class := cls; inst_attrs := kwargs; inst_key := None;
                   inst_expired := false |}).
  set (l := length (heap s)).
  set (sb := set_pending [l] (set_heap (heap s ++ [inst0]) s)).
  assert (heap sb !! l = Some inst0) as Hl by (by apply list_lookup_middle).
  assert (db_commit sb = (Raise (IntegrityError "duplicate key value"), sb))
    as Hcommit.
  { unfold db_commit. erewrite bind_return by (by apply await_db_quiet).
    apply bind_raise. unfold db_flush. simpl pending.
    unfold flush_all, mbind, M_bind, bind, flush_one. rewrite Hl. simpl inst_attrs.
    rewrite Hid. unfold insert_instance. simpl inst_class.
    change (working sb !!! table_of cls) with (rows cls s).
    rewrite (existsb_present _ _ r Hr Hrk).
    by rewrite set_sequences_same. }
  eexists. split.
  { unfold create.
    erewrite bind_return
      by (unfold construct; rewrite Hk; reflexivity).
    erewrite bind_return
      by (unfold db_add; simpl; rewrite Hp; reflexivity).
    fold l inst0 sb.
    erewrite bind_return by (by apply commit_rolls_back).
    apply bind_raise. unfold refresh, db_refresh.
    match goal with
    | |- context [heap ?st !! l] =>
        change (heap st !! l) with ((expire <$> heap sb) !! l)
    end.
    by rewrite list_lookup_fmap, Hl. }
  simpl. repeat split. intros cls'. unfold rows; simpl. by rewrite Hw.
Qed.

Lemma create_duplicate_key_witness :
  ∃ s1,
    create Sample.User {[ "id" := VInt 1; "name" := VStr "al" ]}
      (Sample.at_rest [])
    = (Raise (InvalidRequestError "not persistent"), s1)
    ∧ (∀ cls', rows cls' s1 = rows cls' (Sample.at_rest []))
    ∧ committed s1 = committed (Sample.at_rest [])
    ∧ pending s1 = []
    ∧ stdout s1 = stdout (Sample.at_rest []) ++ ["duplicate key value"].
Proof.
  apply (create_duplicate_key Sample.User
           {[ "id" := VInt 1; "name" := VStr "al" ]} (Sample.at_rest []) 1
           Sample.alice); try (vm_compute; reflexivity).
  - split; reflexivity.
  - left.
Defined.

(** X18: deleting the instance that [create] has just returned gives
    back the table there was before the [create]. *)
Theorem create_then_delete cls kwargs s k :
  faults s = [] → pending s = [] →
  known_columns cls kwargs = true →
  new_key cls kwargs s = Some k →
  (∀ r, r ∈ rows cls s → getattr r "id" ≠ VInt k) →
  ∃ obj s1 (self : instance) s2,
    create cls kwargs s = (Return obj, s1)
    ∧ heap s1 !! obj = Some self
    ∧ delete obj s1 = (Return tt, s2)
    ∧ rows cls s2 = rows cls s.
Proof.
  intros Hf Hp Hk Hkey Hfresh.
  destruct (create_returns cls kwargs s k Hf Hp Hk Hkey Hfresh)
    as (s1 & Hc & Hheap & Hrows & Hf1 & Hp1).
  set (new := <["id" := VInt k]> kwargs) in *.
  assert (getattr new "id" = VInt k) as Hnew
    by (unfold new, getattr; by rewrite lookup_insert_eq).
  eexists _, s1, _, _. split; [exact Hc|]. split; [exact Hheap|].
  rewrite (delete_run _ _ _ Hheap). simpl inst_expired. simpl inst_class.
  simpl inst_attrs. fold new. rewrite Hnew.
  split; [by apply delete_by_id_quiet|].
  unfold rows at 1; simpl. rewrite lookup_total_insert_eq, Hrows.
  rewrite List.filter_app. simpl.
  rewrite col_eq_key, bool_decide_eq_true_2 by done. simpl.
  rewrite app_nil_r.
  by apply (filter_out_absent (λ r : row, getattr r "id")).
Qed.

Lemma create_then_delete_witness :
  ∃ obj s1 (self : instance) s2,
    create Sample.User {[ "name" := VStr "carol" ]} (Sample.at_rest [])
    = (Return obj, s1)
    ∧ heap s1 !! obj = Some self
    ∧ delete obj s1 = (Return tt, s2)
    ∧ rows Sample.User s2 = rows Sample.User (Sample.at_rest []).
Proof.
  apply (create_then_delete Sample.User {[ "name" := VStr "carol" ]}
           (Sample.at_rest []) 3); try (vm_compute; reflexivity).
  intros r Hr.
  apply elem_of_cons in Hr as [->|Hr]; [discriminate|].
  apply elem_of_cons in Hr as [->|Hr]; [discriminate|].
  by apply elem_of_nil in Hr.
Defined.

(** X19: a [refresh] that returns has loaded the instance from its row:
    [get] by the id of the instance returns exactly its attributes; and
    it has changed no table. *)
Theorem refresh_loads_row (obj : loc) s s1 :
  refresh obj s = (Return tt, s1) →
  faults s1 = [] →
  ∃ inst : instance,
    heap s1 !! obj = Some inst
    ∧ get (inst_class inst) (col_eq "id" (getattr (inst_attrs inst) "id"))
        None s1
      = (Return (Some (CEntity (inst_attrs inst))), s1)
    ∧ working s1 = working s ∧ committed s1 = committed s.
Proof.
  unfold refresh. intros H Hf.
  pose proof (db_refresh_tables obj s) as (Hc & Hw & _).
  rewrite H in Hc, Hw. simpl in Hc, Hw.
  apply db_refresh_return in H as (inst & r & _ & Hfind & Hnow).
  eexists. split; [exact Hnow|]. simpl. split; [|done].
  rewrite get_quiet by done. by rewrite head_filter_find, Hfind.
Qed.

Lemma refresh_loads_row_witness :
  let s1 := (create Sample.User {[ "name" := VStr "carol" ]}
               (Sample.at_rest [])).2 in
  ∃ inst : instance,
    heap s1 !! 0 = Some inst
    ∧ get (inst_class inst) (col_eq "id" (getattr (inst_attrs inst) "id"))
        None s1
      = (Return (Some (CEntity (inst_attrs inst))), s1)
    ∧ working s1 = working s1 ∧ committed s1 = committed s1.
Proof.
  intros s1.
  apply (refresh_loads_row 0 s1 s1); vm_compute; reflexivity.
Defined.

End MoreCreate.
